(** * Order fulfilment: settlement consumer, broker client, placement producer

    A shallow embedding of the three Go components that coordinate an order:

    - [Consume] / [Publish]   (rabbitmq package, both services)
    - [ProcessOrder] / [failOrder]   (inventory-worker/consumers)
    - [CreateOrder]   (order-service/handlers)

    The relational store is a record of finite maps, one per table of the
    schema created by [InitDB].  A transaction is a working copy of the store:
    statements run on the copy, [Commit] installs it, and the deferred
    [tx.Rollback()] drops it.  Everything the driver or the broker may answer
    that the code does not decide itself (a lost connection, a constraint
    violation, a failed commit, a failed publish) comes from an environment
    record that is an input of each handler execution.  Handlers run one at a
    time, as the prefetch count of 1 makes a single consumer do, so the row
    locks taken by [FOR UPDATE] have nothing to order; [log.Printf] calls and
    the created_at / updated_at columns are left out. *)

From Stdlib Require Import ZArith String List PrimFloat Uint63.
From stdpp Require Import gmap strings list pretty.

Local Open Scope Z_scope.

(** ** Tables *)

(** The four values the [valid_status] constraint allows. *)
Inductive Status := PENDING | CONFIRMED | CANCELLED | FAILED.

Global Instance Status_eq_dec : EqDecision Status.
Proof. solve_decision. Defined.

Record Product := {
  p_name : string;
  p_price : float;
  p_stock : Z
}.

Record Order := {
  o_user : Z;
  o_status : Status;
  o_total : float
}.

Record OrderItem := {
  oi_order : Z;
  oi_product : Z;
  oi_quantity : Z;
  oi_price : float
}.

Record Store := {
  products : gmap Z Product;
  orders : gmap Z Order;
  users : gmap Z string;          (* id -> email *)
  order_items : list OrderItem;
  orders_id_seq : Z               (* last value handed out by the SERIAL *)
}.

Definition set_products (f : gmap Z Product → gmap Z Product) (s : Store) : Store :=
  {| products := f (products s); orders := orders s; users := users s;
     order_items := order_items s; orders_id_seq := orders_id_seq s |}.

Definition set_orders (f : gmap Z Order → gmap Z Order) (s : Store) : Store :=
  {| products := products s; orders := f (orders s); users := users s;
     order_items := order_items s; orders_id_seq := orders_id_seq s |}.

Definition set_order_items (f : list OrderItem → list OrderItem) (s : Store) : Store :=
  {| products := products s; orders := orders s; users := users s;
     order_items := f (order_items s); orders_id_seq := orders_id_seq s |}.

Definition set_orders_id_seq (n : Z) (s : Store) : Store :=
  {| products := products s; orders := orders s; users := users s;
     order_items := order_items s; orders_id_seq := n |}.

Definition stock_of (s : Store) (pid : Z) : option Z := p_stock <$> products s !! pid.
Definition status_of (s : Store) (oid : Z) : option Status := o_status <$> orders s !! oid.

(** ** Messages *)

Record OrderItemRequest := {
  ProductID : Z;
  Quantity : Z
}.

Record OrderPlacedMessage := {
  OrderID : Z;
  UserID : Z;
  Items : list OrderItemRequest;
  TotalAmount : float;
  Timestamp : Z
}.

Record OrderConfirmedMessage := {
  c_OrderID : Z;
  c_UserID : Z;
  c_UserEmail : string;
  c_Timestamp : Z
}.

Record OrderFailedMessage := {
  f_OrderID : Z;
  f_UserID : Z;
  f_UserEmail : string;
  f_Reason : string;
  f_Timestamp : Z
}.

Inductive Message :=
| MPlaced (m : OrderPlacedMessage)
| MConfirmed (m : OrderConfirmedMessage)
| MFailed (m : OrderFailedMessage).

Definition QueueOrderPlaced : string := "order_placed".
Definition QueueOrderConfirmed : string := "order_confirmed".
Definition QueueOrderFailed : string := "order_failed".

(** The durable effects of the services, oldest first: a transaction
    committed, a message accepted by the broker on a queue. *)
Inductive Effect :=
| Committed
| Published (queueName : string) (message : Message).

Record World := {
  db : Store;
  trace : list Effect
}.

Definition published (ef : Effect) : option (string * Message) :=
  match ef with
  | Committed => None
  | Published q m => Some (q, m)
  end.

(** What the broker holds of the run: queue name and payload. *)
Definition outbox (w : World) : list (string * Message) := omap published (trace w).

(** ** Transactions *)

(** [tx.Commit()]: the working copy becomes the database.  When it fails the
    transaction is over all the same and nothing of it is kept. *)
Definition Commit (commit_fails : bool) (tx : Store) (w : World) : option World :=
  if commit_fails then None
  else Some {| db := tx; trace := trace w ++ [Committed] |}.

(** ** Broker client *)

(** [Publish]: the message is on the queue exactly when the call returns nil. *)
Definition Publish (publish_fails : bool) (queueName : string) (message : Message)
    (w : World) : bool * World :=
  if publish_fails then (false, w)
  else (true, {| db := db w; trace := trace w ++ [Published queueName message] |}).

(** [msg.Ack(false)] and [msg.Nack(false, true)], the only two answers the
    consume loop gives. *)
Inductive Disposition := Ack | NackRequeue.

Global Instance Disposition_eq_dec : EqDecision Disposition.
Proof. solve_decision. Defined.

Section Consume.
Context {D E St : Type}.
(** [handler(msg.Body)]: an error or nil, and the state it leaves. *)
Variable handler : D → St → option E * St.

Definition dispose (r : option E) : Disposition :=
  match r with
  | Some _ => NackRequeue
  | None => Ack
  end.

(** The body of [for msg := range msgs]. *)
Fixpoint consume_loop (msgs : list D) (st : St) : list Disposition * St :=
  match msgs with
  | [] => ([], st)
  | msg :: rest =>
      let '(err, st1) := handler msg st in
      let '(ds, st2) := consume_loop rest st1 in
      (dispose err :: ds, st2)
  end.

Inductive ConsumeError := ErrQos | ErrRegister.

(** [Consume]: QoS, registration, then the loop over what is delivered. *)
Definition Consume (qos_fails register_fails : bool) (msgs : list D) (st : St)
    : option ConsumeError * (list Disposition * St) :=
  if qos_fails then (Some ErrQos, ([], st))
  else if register_fails then (Some ErrRegister, ([], st))
  else (None, consume_loop msgs st).

(** The broker's side of a queue with one consumer and a prefetch count of
    1, as AMQP defines it: the head of the queue is delivered; an
    acknowledged message is removed, a message rejected with requeue is
    back in the queue and is delivered again.  [serve n] makes [n]
    deliveries and returns what was delivered with the answer given, the
    queue left, and the state.  The answers travel on the channel that
    [Publish] uses: [serve] describes the queue for as long as that channel
    is up, and says nothing of a delivery whose handler met a failed
    publish. *)
Fixpoint serve (n : nat) (queue : list D) (st : St)
    : list (D * Disposition) * list D * St :=
  match n, queue with
  | O, _ => ([], queue, st)
  | S _, [] => ([], [], st)
  | S n', msg :: rest =>
      let '(err, st1) := handler msg st in
      let queue1 := match dispose err with
                    | Ack => rest
                    | NackRequeue => msg :: rest
                    end in
      let '(log, queue2, st2) := serve n' queue1 st1 in
      ((msg, dispose err) :: log, queue2, st2)
  end.
End Consume.

(** ** Inventory settlement consumer *)

(** What the environment decides during one execution of [ProcessOrder]:
    which statement meets an error other than [sql.ErrNoRows] (the [nat] is
    the position of the line item in the payload), and the clock. *)
Record Env := {
  begin_err : bool;
  select_err : nat → bool;
  update_err : nat → bool;
  status_err : bool;
  commit_err : bool;
  email_err : bool;
  publish_err : bool;
  now : Z
}.

(** One constructor per [fmt.Errorf] of [ProcessOrder]. *)
Inductive Error :=
| ErrUnmarshal
| ErrBegin
| ErrCheckStock
| ErrUpdateStock
| ErrNoRowsAffected (pid : Z)
| ErrUpdateStatus
| ErrCommit
| ErrEmail.

(** [SELECT name, stock FROM products WHERE id = $1 FOR UPDATE] *)
Inductive Row := NoRows | RowErr | RowOf (productName : string) (currentStock : Z).

Definition select_for_update (e : Env) (i : nat) (pid : Z) (tx : Store) : Row :=
  if select_err e i then RowErr
  else match products tx !! pid with
       | None => NoRows
       | Some p => RowOf (p_name p) (p_stock p)
       end.

Definition decrement (q : Z) (p : Product) : Product :=
  {| p_name := p_name p; p_price := p_price p; p_stock := p_stock p - q |}.

(** [UPDATE products SET stock = stock - $1 WHERE id = $2]: the new working
    copy and the number of rows affected, or no answer on an error. *)
Definition exec_decrement (e : Env) (i : nat) (q pid : Z) (tx : Store) : option (Store * Z) :=
  if update_err e i then None
  else match products tx !! pid with
       | None => Some (tx, 0)
       | Some _ => Some (set_products (alter (decrement q) pid) tx, 1)
       end.

Definition with_status (st : Status) (o : Order) : Order :=
  {| o_user := o_user o; o_status := st; o_total := o_total o |}.

(** [UPDATE orders SET status = $1, ... WHERE id = $2]; the rows affected are
    not looked at by either caller. *)
Definition exec_set_status (e : Env) (st : Status) (oid : Z) (tx : Store) : option Store :=
  if status_err e then None
  else Some (set_orders (alter (with_status st) oid) tx).


(** [SELECT email FROM users WHERE id = $1] on the connection pool, outside
    the transaction; no row is an error like any other for both callers. *)
Definition query_email (e : Env) (uid : Z) (w : World) : option string :=
  if email_err e then None else users (db w) !! uid.

Definition not_found_reason (pid : Z) : string :=
  "Product #" +:+ pretty pid +:+ " not found".

Definition insufficient_reason (productName : string) (currentStock q : Z) : string :=
  "Insufficient stock for " +:+ productName +:+ ". Available: " +:+ pretty currentStock
    +:+ ", Requested: " +:+ pretty q.

(** How the [for _, item := range msg.Items] loop is left. *)
Inductive LoopExit :=
| Completed (tx : Store)                   (* fell through the loop *)
| Failing (tx : Store) (reason : string)   (* failOrder(...); return nil *)
| Aborted (err : Error).                   (* return fmt.Errorf(...) *)

Fixpoint settle_items (e : Env) (i : nat) (items : list OrderItemRequest) (tx : Store)
    : LoopExit :=
  match items with
  | [] => Completed tx
  | item :: rest =>
      match select_for_update e i (ProductID item) tx with
      | NoRows => Failing tx (not_found_reason (ProductID item))
      | RowErr => Aborted ErrCheckStock
      | RowOf productName currentStock =>
          if currentStock <? Quantity item then
            Failing tx (insufficient_reason productName currentStock (Quantity item))
          else
            match exec_decrement e i (Quantity item) (ProductID item) tx with
            | None => Aborted ErrUpdateStock
            | Some (tx1, rowsAffected) =>
                if rowsAffected =? 0 then Aborted (ErrNoRowsAffected (ProductID item))
                else settle_items e (S i) rest tx1
            end
      end
  end.

(** [failOrder] returns nothing: each of its failures is logged and ends it.
    When it ends before its commit, the caller's deferred rollback drops the
    working copy [tx] and the database stays as it was. *)
Definition failOrder (e : Env) (tx : Store) (orderID userID : Z) (reason : string)
    (w : World) : World :=
  match exec_set_status e CANCELLED orderID tx with
  | None => w
  | Some tx1 =>
      match Commit (commit_err e) tx1 w with
      | None => w
      | Some w1 =>
          match query_email e userID w1 with
          | None => w1
          | Some userEmail =>
              let failedMsg :=
                {| f_OrderID := orderID; f_UserID := userID; f_UserEmail := userEmail;
                   f_Reason := reason; f_Timestamp := now e |} in
              snd (Publish (publish_err e) QueueOrderFailed (MFailed failedMsg) w1)
          end
      end
  end.

(** [ProcessOrder]; the body is [None] when [json.Unmarshal] rejects it.
    Every [return] before a successful commit leaves through the deferred
    rollback, that is with the database of [w]. *)
Definition ProcessOrder (e : Env) (body : option OrderPlacedMessage) (w : World)
    : option Error * World :=
  match body with
  | None => (Some ErrUnmarshal, w)
  | Some msg =>
      if begin_err e then (Some ErrBegin, w)
      else
        match settle_items e 0 (Items msg) (db w) with
        | Aborted err => (Some err, w)
        | Failing tx reason => (None, failOrder e tx (OrderID msg) (UserID msg) reason w)
        | Completed tx =>
            match exec_set_status e CONFIRMED (OrderID msg) tx with
            | None => (Some ErrUpdateStatus, w)
            | Some tx1 =>
                match Commit (commit_err e) tx1 w with
                | None => (Some ErrCommit, w)
                | Some w1 =>
                    match query_email e (UserID msg) w1 with
                    | None => (Some ErrEmail, w1)
                    | Some userEmail =>
                        let confirmedMsg :=
                          {| c_OrderID := OrderID msg; c_UserID := UserID msg;
                             c_UserEmail := userEmail; c_Timestamp := now e |} in
                        (* a failed publish is logged, not returned *)
                        (None, snd (Publish (publish_err e) QueueOrderConfirmed
                                      (MConfirmed confirmedMsg) w1))
                    end
                end
            end
        end
  end.

(** A delivery of the [order_placed] queue together with the conditions
    under which it is handled. *)
Record Delivery := {
  d_env : Env;
  d_body : option OrderPlacedMessage
}.

Definition handle (d : Delivery) (w : World) : option Error * World :=
  ProcessOrder (d_env d) (d_body d) w.

(** The inventory worker: [rmq.Consume(QueueOrderPlaced, ProcessOrder)]. *)
Definition run_worker (ds : list Delivery) (w : World) : list Disposition * World :=
  consume_loop handle ds w.

(** An environment in which nothing goes wrong. *)
Definition calm (t : Z) : Env :=
  {| begin_err := false; select_err := λ _, false; update_err := λ _, false;
     status_err := false; commit_err := false; email_err := false;
     publish_err := false; now := t |}.

(** ** Order placement producer *)

Record CreateOrderRequest := {
  req_Items : list OrderItemRequest
}.

(** What the environment decides during one execution of [CreateOrder]. *)
Record OrderEnv := {
  co_begin_err : bool;
  co_select_err : nat → bool;        (* SELECT price, stock of the i-th item *)
  co_insert_order_err : bool;
  co_price_err : nat → bool;         (* SELECT price of the i-th item *)
  co_insert_item_err : nat → bool;
  co_commit_err : bool;
  co_publish_err : bool;
  co_now : Z
}.

(** The three [c.JSON] answers: 400, 500 and 202. *)
Inductive Response :=
| BadRequest (error : string)
| InternalServerError (error : string)
| Accepted (order_id : Z) (status : Status).

(** [float64(n)] for an [int] n. *)
Definition float64_of_int (n : Z) : float :=
  if n <? 0 then
    if n =? - 2 ^ 63 then PrimFloat.opp (PrimFloat.mul (of_uint63 (Uint63.of_Z (2 ^ 62))) 2%float)
    else PrimFloat.opp (of_uint63 (Uint63.of_Z (- n)))
  else of_uint63 (Uint63.of_Z n).

Inductive PricingExit :=
| Priced (totalAmount : float)
| Rejected (r : Response).

(** The first loop: every product must exist; the total is accumulated. *)
Fixpoint price_items (e : OrderEnv) (i : nat) (items : list OrderItemRequest) (tx : Store)
    (totalAmount : float) : PricingExit :=
  match items with
  | [] => Priced totalAmount
  | item :: rest =>
      if co_select_err e i then Rejected (InternalServerError "Database error")
      else match products tx !! ProductID item with
           | None =>
               Rejected (BadRequest ("Product ID " +:+ pretty (ProductID item) +:+ " not found"))
           | Some p =>
               price_items e (S i) rest tx
                 (PrimFloat.add totalAmount
                    (PrimFloat.mul (p_price p) (float64_of_int (Quantity item))))
           end
  end.

(** [INSERT INTO orders ... RETURNING id]: the id is the next value of the
    sequence.  The row holds the total as it is passed: the rounding of the
    [DECIMAL(10,2)] column to two decimals is left out, and its refusal of
    a total that does not fit is one of the errors of the environment. *)
Definition insert_order (userID : Z) (totalAmount : float) (tx : Store) : Z * Store :=
  let orderID := orders_id_seq tx + 1 in
  (orderID,
   set_orders_id_seq orderID
     (set_orders
        (insert orderID {| o_user := userID; o_status := PENDING; o_total := totalAmount |})
        tx)).

(** The second loop.  The error of the price query is dropped by the code:
    [price] keeps its zero value when the query fails or finds no row.  On
    PostgreSQL a statement that fails aborts the transaction and the INSERT
    after it fails as well: an environment of that database has
    [co_insert_item_err e i] wherever it has [co_price_err e i]. *)
Fixpoint insert_items (e : OrderEnv) (i : nat) (items : list OrderItemRequest) (orderID : Z)
    (tx : Store) : option Store :=
  match items with
  | [] => Some tx
  | item :: rest =>
      let price :=
        if co_price_err e i then 0%float
        else match products tx !! ProductID item with
             | None => 0%float
             | Some p => p_price p
             end in
      if co_insert_item_err e i then None
      else
        let row := {| oi_order := orderID; oi_product := ProductID item;
                      oi_quantity := Quantity item; oi_price := price |} in
        insert_items e (S i) rest orderID (set_order_items (λ l, l ++ [row]) tx)
  end.

(** A sequence value handed out is not given back by a rollback. *)
Definition rolled_back (seq : Z) (w : World) : World :=
  {| db := set_orders_id_seq seq (db w); trace := trace w |}.

(** [CreateOrder]; [bound] is what [c.ShouldBindJSON] gives, the error text
    or the request. *)
Definition CreateOrder (e : OrderEnv) (userID : Z) (bound : string + CreateOrderRequest)
    (w : World) : Response * World :=
  match bound with
  | inl err => (BadRequest err, w)
  | inr req =>
      if co_begin_err e then (InternalServerError "Failed to start transaction", w)
      else
        match price_items e 0 (req_Items req) (db w) 0%float with
        | Rejected r => (r, w)
        | Priced totalAmount =>
            if co_insert_order_err e then (InternalServerError "Failed to create order", w)
            else
              let '(orderID, tx1) := insert_order userID totalAmount (db w) in
              match insert_items e 0 (req_Items req) orderID tx1 with
              | None =>
                  (InternalServerError "Failed to create order items", rolled_back orderID w)
              | Some tx2 =>
                  match Commit (co_commit_err e) tx2 w with
                  | None =>
                      (InternalServerError "Failed to commit transaction",
                       rolled_back orderID w)
                  | Some w1 =>
                      let message :=
                        {| OrderID := orderID; UserID := userID; Items := req_Items req;
                           TotalAmount := totalAmount; Timestamp := co_now e |} in
                      match Publish (co_publish_err e) QueueOrderPlaced (MPlaced message) w1 with
                      | (false, w2) =>
                          (InternalServerError
                             "Order created but failed to queue for processing", w2)
                      | (true, w2) => (Accepted orderID PENDING, w2)
                      end
                  end
              end
        end
  end.

(** ** Notions used to state the properties *)

(** The quantity a list of line items asks of product [pid]. *)
Definition demand (pid : Z) (items : list OrderItemRequest) : Z :=
  foldr (λ item acc, if decide (ProductID item = pid) then Quantity item + acc else acc)
    0 items.

Definition apply_item (m : gmap Z Product) (item : OrderItemRequest) : gmap Z Product :=
  alter (decrement (Quantity item)) (ProductID item) m.

(** The store once the decrements of [items] are applied, one after the
    other; nothing but the products table differs. *)
Definition settled (items : list OrderItemRequest) (s : Store) : Store :=
  set_products (λ m, foldl apply_item m items) s.

(** The stock check of [item] in a transaction that started from [s] and has
    already decremented [earlier]: the product exists and what is left of its
    stock covers the quantity. *)
Definition in_stock (s : Store) (earlier : list OrderItemRequest) (item : OrderItemRequest)
    : bool :=
  match products s !! ProductID item with
  | None => false
  | Some p => Quantity item <=? p_stock p - demand (ProductID item) earlier
  end.

Fixpoint satisfied_from (s : Store) (earlier items : list OrderItemRequest) : bool :=
  match items with
  | [] => true
  | item :: rest => in_stock s earlier item && satisfied_from s (earlier ++ [item]) rest
  end.

(** Every line item passes its stock check when its turn comes. *)
Definition all_satisfied (s : Store) (items : list OrderItemRequest) : bool :=
  satisfied_from s [] items.

(** The reading of the same condition against the stock as it is before the
    message is handled, each line item on its own. *)
Definition each_in_stock (s : Store) (items : list OrderItemRequest) : bool :=
  forallb (in_stock s []) items.

(** The reason [ProcessOrder] gives for the line item that fails. *)
Definition fail_reason (s : Store) (earlier : list OrderItemRequest) (item : OrderItemRequest)
    : string :=
  match products s !! ProductID item with
  | None => not_found_reason (ProductID item)
  | Some p =>
      insufficient_reason (p_name p) (p_stock p - demand (ProductID item) earlier)
        (Quantity item)
  end.

Definition is_terminal (st : Status) : bool :=
  match st with
  | CONFIRMED | CANCELLED => true
  | PENDING | FAILED => false
  end.

(** No statement of the loop meets an error for the [n] line items starting
    at position [i]. *)
Definition loop_calm (e : Env) (i n : nat) : Prop :=
  ∀ j, (j < n)%nat → select_err e (i + j)%nat = false ∧ update_err e (i + j)%nat = false.

(** The working copy the loop leaves, if it leaves one. *)
Definition exit_store (x : LoopExit) : option Store :=
  match x with
  | Completed tx | Failing tx _ => Some tx
  | Aborted _ => None
  end.

(** The database after a settlement that confirms, and after one that
    cancels at the line item following [pre]. *)
Definition confirmed_store (msg : OrderPlacedMessage) (s : Store) : Store :=
  set_orders (alter (with_status CONFIRMED) (OrderID msg)) (settled (Items msg) s).

Definition cancelled_store (msg : OrderPlacedMessage) (pre : list OrderItemRequest)
    (s : Store) : Store :=
  set_orders (alter (with_status CANCELLED) (OrderID msg)) (settled pre s).

Definition confirmed_event (e : Env) (msg : OrderPlacedMessage) (email : string) : Effect :=
  Published QueueOrderConfirmed
    (MConfirmed {| c_OrderID := OrderID msg; c_UserID := UserID msg;
                   c_UserEmail := email; c_Timestamp := now e |}).

Definition failed_event (e : Env) (msg : OrderPlacedMessage) (email reason : string)
    : Effect :=
  Published QueueOrderFailed
    (MFailed {| f_OrderID := OrderID msg; f_UserID := UserID msg; f_UserEmail := email;
                f_Reason := reason; f_Timestamp := now e |}).

(** ** A shop to run the handlers on *)

Definition laptop (stock : Z) : Product :=
  {| p_name := "Laptop"; p_price := 100%float; p_stock := stock |}.

Definition phone (stock : Z) : Product :=
  {| p_name := "Phone"; p_price := 50%float; p_stock := stock |}.

(** Products 1 and 2, user 3, and order 7 of user 3 waiting for settlement. *)
Definition shop (laptops phones : Z) : World :=
  {| db := {| products := {[ 1 := laptop laptops; 2 := phone phones ]};
              orders := {[ 7 := {| o_user := 3; o_status := PENDING; o_total := 0%float |} ]};
              users := {[ 3 := "buyer@example.org"%string ]};
              order_items := [];
              orders_id_seq := 7 |};
     trace := [] |}.

Definition line (pid q : Z) : OrderItemRequest := {| ProductID := pid; Quantity := q |}.

(** The placement message of order 7. *)
Definition placed (items : list OrderItemRequest) : OrderPlacedMessage :=
  {| OrderID := 7; UserID := 3; Items := items; TotalAmount := 0%float; Timestamp := 0 |}.

Definition with_email_err (e : Env) : Env :=
  {| begin_err := begin_err e; select_err := select_err e; update_err := update_err e;
     status_err := status_err e; commit_err := commit_err e; email_err := true;
     publish_err := publish_err e; now := now e |}.

Definition with_publish_err (e : Env) : Env :=
  {| begin_err := begin_err e; select_err := select_err e; update_err := update_err e;
     status_err := status_err e; commit_err := commit_err e; email_err := email_err e;
     publish_err := true; now := now e |}.

Definition with_commit_err (e : Env) : Env :=
  {| begin_err := begin_err e; select_err := select_err e; update_err := update_err e;
     status_err := status_err e; commit_err := true; email_err := email_err e;
     publish_err := publish_err e; now := now e |}.

(** ** Notions for the placement producer *)

(** No insert of a line meets an error for the [n] line items from [i] on. *)
Definition inserts_calm (e : OrderEnv) (i n : nat) : Prop :=
  ∀ j, (j < n)%nat → co_insert_item_err e (i + j)%nat = false.

(** The rows of [order_items] written for a request: product and quantity
    of each line, and the price the second loop read for it. *)
Fixpoint order_rows (e : OrderEnv) (i : nat) (items : list OrderItemRequest) (orderID : Z)
    (m : gmap Z Product) : list OrderItem :=
  match items with
  | [] => []
  | item :: rest =>
      {| oi_order := orderID; oi_product := ProductID item; oi_quantity := Quantity item;
         oi_price := if co_price_err e i then 0%float
                     else match m !! ProductID item with
                          | None => 0%float
                          | Some p => p_price p
                          end |}
      :: order_rows e (S i) rest orderID m
  end.

(** The database once the order and its lines are committed. *)
Definition placed_store (e : OrderEnv) (userID : Z) (req : CreateOrderRequest)
    (totalAmount : float) (s : Store) : Store :=
  let orderID := orders_id_seq s + 1 in
  set_order_items (λ l, l ++ order_rows e 0 (req_Items req) orderID (products s))
    (snd (insert_order userID totalAmount s)).

Definition placed_event (e : OrderEnv) (userID : Z) (req : CreateOrderRequest)
    (totalAmount : float) (s : Store) : Effect :=
  Published QueueOrderPlaced
    (MPlaced {| OrderID := orders_id_seq s + 1; UserID := userID; Items := req_Items req;
                TotalAmount := totalAmount; Timestamp := co_now e |}).

Definition co_calm (t : Z) : OrderEnv :=
  {| co_begin_err := false; co_select_err := λ _, false; co_insert_order_err := false;
     co_price_err := λ _, false; co_insert_item_err := λ _, false;
     co_commit_err := false; co_publish_err := false; co_now := t |}.

Definition co_with_publish_err (e : OrderEnv) : OrderEnv :=
  {| co_begin_err := co_begin_err e; co_select_err := co_select_err e;
     co_insert_order_err := co_insert_order_err e; co_price_err := co_price_err e;
     co_insert_item_err := co_insert_item_err e; co_commit_err := co_commit_err e;
     co_publish_err := true; co_now := co_now e |}.

(** ** Connecting: the retry loops of the three [Connect] functions *)

Inductive ConnEffect :=
| Attempt (i : nat)                          (* the call tried at iteration i *)
| Slept (seconds : Z)                        (* time.Sleep(3 * time.Second) *)
| OpenedChannel
| DeclaredQueue (name : string) (durable : bool)
| ClosedChannel
| ClosedConn
| PoolConfigured (maxOpen maxIdle lifetimeSeconds : Z).

(** [for i := 0; i < 10; i++ { ...; if err == nil { break }; log; sleep }],
    with [remaining] iterations left from [i] on: whether the loop was left
    by the [break], and what it did. *)
Fixpoint retry (attempt : nat → bool) (i remaining : nat) : bool * list ConnEffect :=
  match remaining with
  | O => (false, [])
  | S r =>
      if attempt i then (true, [Attempt i])
      else
        let '(ok, t) := retry attempt (S i) r in
        (ok, Attempt i :: Slept 3 :: t)
  end.

Definition attempts (t : list ConnEffect) : nat :=
  foldr (λ ef acc, match ef with Attempt _ => S acc | _ => acc end) 0%nat t.

Definition slept (t : list ConnEffect) : Z :=
  foldr (λ ef acc, match ef with Slept n => n + acc | _ => acc end) 0 t.

(** What the environment decides while the broker client connects. *)
Record BrokerEnv := {
  dial_ok : nat → bool;             (* amqp.Dial at iteration i *)
  channel_err : bool;               (* conn.Channel() *)
  declare_err : string → bool       (* QueueDeclare of that queue *)
}.

Inductive ConnectError :=
| ErrDial
| ErrOpenChannel
| ErrDeclareQueue (queue : string).

(** The two pointers of the struct, each with whether it has been closed. *)
Record RabbitMQ := {
  conn : option bool;
  channel : option bool
}.

(** [Close]: closes what is not nil, the channel first. *)
Definition Close (r : RabbitMQ) : RabbitMQ * list ConnEffect :=
  ({| conn := (λ _, true) <$> conn r; channel := (λ _, true) <$> channel r |},
   match channel r with Some _ => [ClosedChannel] | None => [] end
   ++ match conn r with Some _ => [ClosedConn] | None => [] end).

Definition IsConnected (r : RabbitMQ) : bool :=
  match conn r with
  | Some closed => negb closed
  | None => false
  end.

Fixpoint declare_each (e : BrokerEnv) (queues : list string)
    : option string * list ConnEffect :=
  match queues with
  | [] => (None, [])
  | queue :: rest =>
      if declare_err e queue then (Some queue, [])
      else
        let '(r, t) := declare_each e rest in
        (r, DeclaredQueue queue true :: t)
  end.

Definition declareQueues (e : BrokerEnv) : option string * list ConnEffect :=
  declare_each e [QueueOrderPlaced; QueueOrderConfirmed; QueueOrderFailed].

(** [rabbitmq.Connect]. *)
Definition Connect (e : BrokerEnv) : (ConnectError + RabbitMQ) * list ConnEffect :=
  let '(ok, t1) := retry (dial_ok e) 0 10 in
  if ok then
    if channel_err e then (inl ErrOpenChannel, t1 ++ [ClosedConn])
    else
      let rmq := {| conn := Some false; channel := Some false |} in
      match declareQueues e with
      | (Some queue, t2) =>
          (inl (ErrDeclareQueue queue), t1 ++ OpenedChannel :: t2 ++ snd (Close rmq))
      | (None, t2) => (inr rmq, t1 ++ OpenedChannel :: t2)
      end
  else (inl ErrDial, t1).

(** What the environment decides while the database and the cache connect. *)
Record PingEnv := {
  open_ok : nat → bool;             (* sql.Open at iteration i *)
  ping_ok : nat → bool              (* db.Ping / client.Ping at iteration i *)
}.

(** [database.Connect]: whether a handle is returned, and what was done. *)
Definition database_Connect (e : PingEnv) : bool * list ConnEffect :=
  let '(ok, t) := retry (λ i, open_ok e i && ping_ok e i) 0 10 in
  if ok then (true, t ++ [PoolConfigured 25 5 300]) else (false, t).

(** [cache.Connect]. *)
Definition cache_Connect (e : PingEnv) : bool * list ConnEffect :=
  retry (ping_ok e) 0 10.

(** ** Notification consumer *)

Definition smtpHost : string := "qweqwe".
Definition smtpPort : string := "qweqwe".
Definition smtpUser : string := "vsddsvsvd".
Definition smtpPass : string := "asfdgsdvs".

Definition nl : string := String (Ascii.ascii_of_nat 10) "".

(** The port of an address as [net.Dial] takes it: a decimal number, or the
    name of a service.  The names are those of the [tcp] table of the net
    package; the services file of a host adds the registered names, and
    [smtpPort] is none of them. *)
Definition is_digit (c : Ascii.ascii) : bool :=
  (48 <=? Ascii.nat_of_ascii c)%nat && (Ascii.nat_of_ascii c <=? 57)%nat.

Definition tcp_services : list string :=
  ["ftp"; "ftps"; "gopher"; "http"; "https"; "imap2"; "imap3"; "imaps"; "pop3"; "pop3s";
   "smtp"; "submissions"; "ssh"; "telnet"].

Definition resolves (port : string) : bool :=
  (negb (String.eqb port "") && forallb is_digit (list_ascii_of_string port))
  || existsb (String.eqb port) tcp_services.

(** The arguments of one [smtp.SendMail] that returned nil; the
    authentication is always [PlainAuth] of the constants above. *)
Record Mail := {
  mail_addr : string;
  mail_from : string;
  mail_to : list string;
  mail_msg : string
}.

(** What the environment decides during one notification: the query of the
    order's total, the mail transport, and [time.Now()] as formatted. *)
Record MailEnv := {
  total_err : bool;
  smtp_err : bool;
  order_date : string
}.

Inductive NotifyError :=
| ErrNotifyUnmarshal
| ErrOrderDetails
| ErrSendEmail
| ErrSendFailureEmail.

(** [smtp.SendMail(addr, auth, smtpUser, []string{to}, msg)] with [addr]
    the constant [smtpHost + ":" + smtpPort]: the address is dialled first,
    and a port that does not resolve ends the call with an error before any
    connection is made. *)
Definition SendMail (e : MailEnv) (to msg : string) (sent : list Mail) : option (list Mail) :=
  if negb (resolves smtpPort) then None
  else if smtp_err e then None
  else Some (sent ++ [{| mail_addr := smtpHost +:+ ":" +:+ smtpPort; mail_from := smtpUser;
                         mail_to := [to]; mail_msg := msg |}]).

Definition mail_text (email subject body : string) : string :=
  "From: " +:+ smtpUser +:+ nl +:+ "To: " +:+ email +:+ nl +:+ "Subject: " +:+ subject
    +:+ nl +:+ nl +:+ body.

Definition failure_subject (orderID : Z) : string :=
  "Order #" +:+ pretty orderID +:+ " Cancelled ❌".

Definition failure_body (orderID : Z) (reason date : string) : string :=
  "Dear Customer," +:+ nl +:+ nl
    +:+ "Unfortunately, your order #" +:+ pretty orderID +:+ " could not be processed." +:+ nl
    +:+ "Reason: " +:+ reason +:+ nl +:+ nl
    +:+ "We apologize for the inconvenience. Please try placing your order again" +:+ nl
    +:+ "or contact our customer service for assistance." +:+ nl +:+ nl
    +:+ "Order Date: " +:+ date +:+ nl.

Definition sendFailureEmail (e : MailEnv) (email : string) (orderID : Z) (reason : string)
    (sent : list Mail) : option NotifyError * list Mail :=
  let msg := mail_text email (failure_subject orderID)
               (failure_body orderID reason (order_date e)) in
  match SendMail e email msg sent with
  | None => (Some ErrSendFailureEmail, sent)
  | Some sent1 => (None, sent1)
  end.

(** [ProcessFailed]; the body is [None] when [json.Unmarshal] rejects it. *)
Definition ProcessFailed (e : MailEnv) (body : option OrderFailedMessage) (sent : list Mail)
    : option NotifyError * list Mail :=
  match body with
  | None => (Some ErrNotifyUnmarshal, sent)
  | Some msg => sendFailureEmail e (f_UserEmail msg) (f_OrderID msg) (f_Reason msg) sent
  end.

(** A delivery of the [order_failed] queue with the conditions under which
    it is handled. *)
Record FailedNotice := {
  fn_env : MailEnv;
  fn_body : option OrderFailedMessage
}.

Definition notify_failed (d : FailedNotice) (sent : list Mail)
    : option NotifyError * list Mail :=
  ProcessFailed (fn_env d) (fn_body d) sent.

Section Confirmation.
(** [fmt.Sprintf("%.2f", x)] of the standard library. *)
Variable format_amount : float → string.

Definition confirmation_subject (orderID : Z) : string :=
  "Order #" +:+ pretty orderID +:+ " Confirmed! 🎉".

Definition confirmation_body (orderID : Z) (totalAmount : float) (date : string) : string :=
  "Dear Customer," +:+ nl +:+ nl
    +:+ "Your order #" +:+ pretty orderID +:+ " has been confirmed successfully!" +:+ nl
    +:+ "Total Amount: Rp " +:+ format_amount totalAmount +:+ nl +:+ nl
    +:+ "We will process your order shortly and keep you updated." +:+ nl +:+ nl
    +:+ "Thank you for shopping with us!" +:+ nl +:+ nl
    +:+ "Order Date: " +:+ date +:+ nl.

Definition sendConfirmationEmail (e : MailEnv) (email : string) (orderID : Z)
    (totalAmount : float) (sent : list Mail) : option NotifyError * list Mail :=
  let msg := mail_text email (confirmation_subject orderID)
               (confirmation_body orderID totalAmount (order_date e)) in
  match SendMail e email msg sent with
  | None => (Some ErrSendEmail, sent)
  | Some sent1 => (None, sent1)
  end.

(** [ProcessConfirmed]: the total is read from the order's row; no row is
    an error like any other. *)
Definition ProcessConfirmed (e : MailEnv) (s : Store) (body : option OrderConfirmedMessage)
    (sent : list Mail) : option NotifyError * list Mail :=
  match body with
  | None => (Some ErrNotifyUnmarshal, sent)
  | Some msg =>
      if total_err e then (Some ErrOrderDetails, sent)
      else
        match orders s !! c_OrderID msg with
        | None => (Some ErrOrderDetails, sent)
        | Some o => sendConfirmationEmail e (c_UserEmail msg) (c_OrderID msg) (o_total o) sent
        end
  end.

(** A delivery of the [order_confirmed] queue with the conditions under
    which it is handled. *)
Record Notice := {
  n_env : MailEnv;
  n_body : option OrderConfirmedMessage
}.

Definition notify_confirmed (s : Store) (d : Notice) (sent : list Mail)
    : option NotifyError * list Mail :=
  ProcessConfirmed (n_env d) s (n_body d) sent.
End Confirmation.

(** [a] occurs in [b]. *)
Definition occurs_in (a b : string) : Prop := ∃ pre post, b = pre +:+ a +:+ post.

(** ** HTTP answers of the read handlers *)

(** [c.JSON(code, gin.H{"success": false, "error": ...})] and
    [c.JSON(code, gin.H{"success": true, "data": ...})]. *)
Inductive Reply (A : Type) :=
| Failure (code : Z) (error : string)
| Success (code : Z) (data : A).

Arguments Failure {A} code error.
Arguments Success {A} code data.

(** ** Reading an order *)

Record OrderView := {
  ov_id : Z;
  ov_user : Z;
  ov_status : Status;
  ov_total : float;
  ov_items : list OrderItem
}.

Record ReadEnv := {
  order_query_err : bool;
  items_query_err : bool;
  scan_err : nat → bool            (* rows.Scan of the i-th row *)
}.

(** [for rows.Next() { if err := rows.Scan(...); err != nil { continue }; append }] *)
Fixpoint scan_rows {A : Type} (skip : nat → bool) (i : nat) (rows : list A) : list A :=
  match rows with
  | [] => []
  | row :: rest =>
      if skip i then scan_rows skip (S i) rest
      else row :: scan_rows skip (S i) rest
  end.

(** [SELECT ... FROM order_items WHERE order_id = $1].  The query has no
    ORDER BY: the rows come here in the order of their insertion, which is
    one of the orders the database may return them in. *)
Definition items_of (orderID : Z) (s : Store) : list OrderItem :=
  filter (λ r, oi_order r = orderID) (order_items s).

(** [GetOrderByID]; [id] is what [strconv.Atoi] makes of the path
    parameter. *)
Definition GetOrderByID (e : ReadEnv) (userID : Z) (id : option Z) (s : Store)
    : Reply OrderView :=
  match id with
  | None => Failure 400 "Invalid order ID"
  | Some orderID =>
      if order_query_err e then Failure 500 "Database error"
      else
        match orders s !! orderID with
        | None => Failure 404 "Order not found"
        | Some o =>
            if decide (o_user o = userID) then
              if items_query_err e then Failure 500 "Failed to get order items"
              else
                Success 200
                  {| ov_id := orderID; ov_user := o_user o; ov_status := o_status o;
                     ov_total := o_total o;
                     ov_items := scan_rows (scan_err e) 0 (items_of orderID s) |}
            else Failure 404 "Order not found"
        end
  end.

Definition read_calm : ReadEnv :=
  {| order_query_err := false; items_query_err := false; scan_err := λ _, false |}.

(** ** Product catalogue with its cache *)

(** What a cache key holds: the JSON of one product or of a list of them. *)
Inductive Json :=
| JProduct (id : Z) (p : Product)
| JProducts (ps : list (Z * Product)).

Record CacheEntry := {
  ce_value : Json;
  ce_expires : Z
}.

(** [5 * time.Minute], in seconds. *)
Definition ProductCacheTTL : Z := 300.

Record CatalogEnv := {
  get_err : bool;                  (* redis Get fails though the key is there *)
  set_err : bool;                  (* redis Set fails; the code does not look *)
  query_err : bool;
  rows_scan_err : bool;
  clock : Z;                       (* seconds *)
  (** what the database answers to a query text with its arguments *)
  answer : string → list string → list (Z * Product)
}.

Definition redis_get (e : CatalogEnv) (key : string) (cache : gmap string CacheEntry)
    : option Json :=
  if get_err e then None
  else
    match cache !! key with
    | None => None
    | Some entry => if clock e <? ce_expires entry then Some (ce_value entry) else None
    end.

Definition redis_set (e : CatalogEnv) (key : string) (v : Json)
    (cache : gmap string CacheEntry) : gmap string CacheEntry :=
  if set_err e then cache
  else <[key := {| ce_value := v; ce_expires := clock e + ProductCacheTTL |}]> cache.

Record Catalogued (A : Type) := {
  cd_data : A;
  cd_cached : bool
}.

Arguments cd_data {A} c.
Arguments cd_cached {A} c.

(** [GetProductByID]; [idStr] is the path parameter and [id] what
    [strconv.Atoi] makes of it. *)
Definition GetProductByID (e : CatalogEnv) (idStr : string) (id : option Z) (s : Store)
    (cache : gmap string CacheEntry)
    : Reply (Catalogued (Z * Product)) * gmap string CacheEntry :=
  match id with
  | None => (Failure 400 "Invalid product ID", cache)
  | Some id =>
      let cacheKey := "product:" +:+ idStr in
      let from_database :=
        if query_err e then (Failure 500 "Database error", cache)
        else
          match products s !! id with
          | None => (Failure 404 "Product not found", cache)
          | Some p =>
              (Success 200 {| cd_data := (id, p); cd_cached := false |},
               redis_set e cacheKey (JProduct id p) cache)
          end in
      match redis_get e cacheKey cache with
      | Some (JProduct pid p) =>
          (Success 200 {| cd_data := (pid, p); cd_cached := true |}, cache)
      | Some (JProducts _) | None => from_database
      end
  end.

Definition searchKey (category name : string) : string :=
  let cacheKey := "products" in
  let cacheKey := if String.eqb category "" then cacheKey
                  else cacheKey +:+ ":category:" +:+ category in
  if String.eqb name "" then cacheKey else cacheKey +:+ ":name:" +:+ name.

(** The query text and its arguments as [SearchProducts] builds them. *)
Definition searchQuery (category name : string) : string * list string :=
  let query := "SELECT id, name, description, price, stock, category, created_at, updated_at FROM products WHERE 1=1" in
  let '(query, args, argCount) :=
    if String.eqb category "" then (query, [], 1)
    else (query +:+ " AND category = $" +:+ pretty 1, [category], 2) in
  let '(query, args, argCount) :=
    if String.eqb name "" then (query, args, argCount)
    else (query +:+ " AND name ILIKE $" +:+ pretty argCount,
          args ++ ["%" +:+ name +:+ "%"], argCount + 1) in
  (query +:+ " ORDER BY id", args).

(** [SearchProducts]. *)
Definition SearchProducts (e : CatalogEnv) (category name : string)
    (cache : gmap string CacheEntry)
    : Reply (Catalogued (list (Z * Product))) * gmap string CacheEntry :=
  let cacheKey := searchKey category name in
  let from_database :=
    if query_err e then (Failure 500 "Database error", cache)
    else if rows_scan_err e then (Failure 500 "Failed to scan product", cache)
    else
      let '(query, args) := searchQuery category name in
      let products := answer e query args in
      (Success 200 {| cd_data := products; cd_cached := false |},
       redis_set e cacheKey (JProducts products) cache) in
  match redis_get e cacheKey cache with
  | Some (JProducts products) =>
      (Success 200 {| cd_data := products; cd_cached := true |}, cache)
  | Some (JProduct _ _) | None => from_database
  end.

(** ** Authentication service *)

Record UserRow := {
  u_id : Z;
  u_name : string;
  u_email : string;
  u_password : string;             (* the bcrypt hash *)
  u_phone : string
}.

Record AuthStore := {
  user_rows : list UserRow;
  users_id_seq : Z
}.

Record RegisterRequest := {
  rr_Name : string;
  rr_Email : string;
  rr_Password : string;
  rr_Phone : string
}.

Record LoginRequest := {
  lr_Email : string;
  lr_Password : string
}.

Record UpdateProfileRequest := {
  up_Name : string;
  up_Phone : string
}.

(** The [User] struct as it is serialised: [Password] has the tag [json:"-"]. *)
Record UserView := {
  uv_id : Z;
  uv_name : string;
  uv_email : string;
  uv_phone : string
}.

Definition view_of (u : UserRow) : UserView :=
  {| uv_id := u_id u; uv_name := u_name u; uv_email := u_email u; uv_phone := u_phone u |}.

Record Claims := {
  cl_UserID : Z;
  cl_Email : string;
  cl_ExpiresAt : Z;
  cl_IssuedAt : Z
}.

Record AuthEnv := {
  exists_err : bool;
  insert_err : bool;
  select_err_user : bool;
  exec_err : bool;
  fetch_err : bool;
  auth_now : nat → Z               (* the i-th [time.Now()] of the request, in seconds *)
}.

Definition by_email (email : string) (a : AuthStore) : option UserRow :=
  find (λ u, String.eqb (u_email u) email) (user_rows a).

Definition by_id (userID : Z) (a : AuthStore) : option UserRow :=
  find (λ u, u_id u =? userID) (user_rows a).

(** [string(rune(argCount+'0'))] *)
Definition digit (argCount : Z) : string :=
  String (Ascii.ascii_of_nat (Z.to_nat (argCount + 48))) "".

Inductive Arg := AString (s : string) | AInt (n : Z).

(** The text and the arguments of the UPDATE that [UpdateProfile] builds;
    [None] when there is no field to update. *)
Definition updateQuery (req : UpdateProfileRequest) (userID : Z)
    : option (string * list Arg) :=
  let query := "UPDATE users SET " in
  let '(query, args, argCount) :=
    if String.eqb (up_Name req) "" then (query, [], 1)
    else (query +:+ "name = $" +:+ digit 1 +:+ ", ", [AString (up_Name req)], 2) in
  let '(query, args, argCount) :=
    if String.eqb (up_Phone req) "" then (query, args, argCount)
    else (query +:+ "phone = $" +:+ digit argCount +:+ ", ",
          args ++ [AString (up_Phone req)], argCount + 1) in
  if (length args =? 0)%nat then None
  else
    Some (substring 0 (String.length query - 2) query +:+ " WHERE id = $" +:+ digit argCount,
          args ++ [AInt userID]).

(** What that UPDATE does to a row. *)
Definition updated (req : UpdateProfileRequest) (userID : Z) (u : UserRow) : UserRow :=
  if u_id u =? userID then
    {| u_id := u_id u;
       u_name := if String.eqb (up_Name req) "" then u_name u else up_Name req;
       u_email := u_email u;
       u_password := u_password u;
       u_phone := if String.eqb (up_Phone req) "" then u_phone u else up_Phone req |}
  else u.

Section Auth.
(** [bcrypt.GenerateFromPassword], [bcrypt.CompareHashAndPassword] (true
    for nil) and the signing of the claims with the secret. *)
Variable GenerateFromPassword : string → option string.
Variable CompareHashAndPassword : string → string → bool.
Variable SignedString : Claims → option string.

(** The clock is read twice, for [ExpiresAt] first and then for
    [IssuedAt]. *)
Definition generateToken (e : AuthEnv) (userID : Z) (email : string) : option string :=
  SignedString {| cl_UserID := userID; cl_Email := email;
                  cl_ExpiresAt := auth_now e 0 + 24 * 3600; cl_IssuedAt := auth_now e 1 |}.

Definition Register (e : AuthEnv) (bound : string + RegisterRequest) (a : AuthStore)
    : Reply UserView * AuthStore :=
  match bound with
  | inl err => (Failure 400 err, a)
  | inr req =>
      if exists_err e then (Failure 500 "Database error", a)
      else if existsb (λ u, String.eqb (u_email u) (rr_Email req)) (user_rows a) then
        (Failure 409 "Email already registered", a)
      else
        match GenerateFromPassword (rr_Password req) with
        | None => (Failure 500 "Failed to hash password", a)
        | Some hashedPassword =>
            if insert_err e then (Failure 500 "Failed to create user", a)
            else
              let user := {| u_id := users_id_seq a + 1; u_name := rr_Name req;
                             u_email := rr_Email req; u_password := hashedPassword;
                             u_phone := rr_Phone req |} in
              (Success 201 (view_of user),
               {| user_rows := user_rows a ++ [user]; users_id_seq := users_id_seq a + 1 |})
        end
  end.

Definition Login (e : AuthEnv) (bound : string + LoginRequest) (a : AuthStore)
    : Reply (string * UserView) :=
  match bound with
  | inl err => Failure 400 err
  | inr req =>
      if select_err_user e then Failure 500 "Database error"
      else
        match by_email (lr_Email req) a with
        | None => Failure 401 "Invalid email or password"
        | Some user =>
            if CompareHashAndPassword (u_password user) (lr_Password req) then
              match generateToken e (u_id user) (u_email user) with
              | None => Failure 500 "Failed to generate token"
              | Some token => Success 200 (token, view_of user)
              end
            else Failure 401 "Invalid email or password"
        end
  end.
End Auth.

Definition GetProfile (e : AuthEnv) (userID : Z) (a : AuthStore) : Reply UserView :=
  if select_err_user e then Failure 500 "Database error"
  else
    match by_id userID a with
    | None => Failure 404 "User not found"
    | Some user => Success 200 (view_of user)
    end.

Definition UpdateProfile (e : AuthEnv) (userID : Z) (bound : string + UpdateProfileRequest)
    (a : AuthStore) : Reply UserView * AuthStore :=
  match bound with
  | inl err => (Failure 400 err, a)
  | inr req =>
      match updateQuery req userID with
      | None => (Failure 400 "No fields to update", a)
      | Some _ =>
          if exec_err e then (Failure 500 "Failed to update profile", a)
          else
            let a1 := {| user_rows := updated req userID <$> user_rows a;
                         users_id_seq := users_id_seq a |} in
            if fetch_err e then (Failure 500 "Failed to fetch updated profile", a1)
            else
              match by_id userID a1 with
              | None => (Failure 500 "Failed to fetch updated profile", a1)
              | Some user => (Success 200 (view_of user), a1)
              end
      end
  end.

Definition auth_calm (t : Z) : AuthEnv :=
  {| exists_err := false; insert_err := false; select_err_user := false;
     exec_err := false; fetch_err := false; auth_now := λ _, t |}.

(** The queues a trace declares, and the messages a log of deliveries
    acknowledges. *)
Definition declared (t : list ConnEffect) : list (string * bool) :=
  omap (λ ef, match ef with DeclaredQueue q d => Some (q, d) | _ => None end) t.

Definition acked {D : Type} (log : list (D * Disposition)) : list D :=
  omap (λ x, match snd x with Ack => Some (fst x) | NackRequeue => None end) log.

(** ** Lemmas on the store *)

Lemma decrement_decrement q1 q2 p : decrement q2 (decrement q1 p) = decrement (q1 + q2) p.
Proof. unfold decrement; simpl. f_equal. lia. Qed.

Lemma decrement_zero p : decrement 0 p = p.
Proof. destruct p as [n pr st]. unfold decrement; simpl. f_equal. lia. Qed.

Lemma demand_cons pid item items :
  demand pid (item :: items)
  = if decide (ProductID item = pid) then Quantity item + demand pid items
    else demand pid items.
Proof. reflexivity. Qed.

Lemma demand_app pid l1 l2 : demand pid (l1 ++ l2) = demand pid l1 + demand pid l2.
Proof.
  induction l1 as [|item l1 IH]; [reflexivity|].
  rewrite <- app_comm_cons, !demand_cons, IH. case_decide; lia.
Qed.

Lemma demand_notin pid items : pid ∉ ProductID <$> items → demand pid items = 0.
Proof.
  induction items as [|item rest IH]; [done|].
  rewrite fmap_cons, not_elem_of_cons, demand_cons. intros [Hne Hrest].
  rewrite decide_False by done. by apply IH.
Qed.

(** When no two line items name the same product, what the message asks of
    a product is the quantity of the one line item that names it. *)
Lemma demand_NoDup items item :
  NoDup (ProductID <$> items) → item ∈ items →
  demand (ProductID item) items = Quantity item.
Proof.
  induction items as [|item0 rest IH]; [by intros _ ?%elem_of_nil|].
  rewrite fmap_cons, NoDup_cons, elem_of_cons, demand_cons.
  intros [Hfresh Hnd] [-> | Hin].
  - rewrite decide_True by done. rewrite demand_notin by done. lia.
  - rewrite decide_False; [by apply IH|].
    intros Heq. apply Hfresh. rewrite Heq. by apply list_elem_of_fmap_2.
Qed.

(** For such a message the stock check of each line item is the check
    against the stock as it is before the message is handled. *)
Lemma satisfied_from_NoDup s items : ∀ earlier,
  NoDup (ProductID <$> items) →
  (∀ item, item ∈ items → ProductID item ∉ ProductID <$> earlier) →
  each_in_stock s items = true → satisfied_from s earlier items = true.
Proof.
  induction items as [|item rest IH]; intros earlier Hnd Hfresh Hall; [done|].
  rewrite fmap_cons, NoDup_cons in Hnd. destruct Hnd as [Hhead Hnd].
  unfold each_in_stock in Hall. simpl in Hall.
  apply andb_true_iff in Hall as [Hin Hall]. simpl. apply andb_true_iff. split.
  - unfold in_stock in *. destruct (products s !! ProductID item); [|done].
    rewrite demand_notin by (apply Hfresh; by left). by simpl in Hin.
  - apply IH; [done| |done].
    intros item' Hin'. rewrite fmap_app, elem_of_app. intros [Hearlier | Hitem].
    + by apply (Hfresh item'); [right|].
    + simpl in Hitem. apply list_elem_of_singleton in Hitem.
      apply Hhead. rewrite <- Hitem. by apply list_elem_of_fmap_2.
Qed.

Lemma all_satisfied_NoDup s items :
  NoDup (ProductID <$> items) → each_in_stock s items = true →
  all_satisfied s items = true.
Proof.
  intros Hnd Hall. apply satisfied_from_NoDup; [done| |done].
  intros item _. simpl. apply not_elem_of_nil.
Qed.

Lemma lookup_apply_items (items : list OrderItemRequest) (m : gmap Z Product) (pid : Z) :
  foldl apply_item m items !! pid = decrement (demand pid items) <$> m !! pid.
Proof.
  revert m. induction items as [|item rest IH]; intros m.
  - simpl. destruct (m !! pid) as [p|]; simpl; [by rewrite decrement_zero | done].
  - simpl foldl. rewrite IH, demand_cons. unfold apply_item.
    rewrite lookup_alter. case_decide as Hpid.
    + subst pid. destruct (m !! ProductID item) as [p|]; simpl; [|done].
      by rewrite decrement_decrement.
    + done.
Qed.

Lemma lookup_settled items s pid :
  products (settled items s) !! pid = decrement (demand pid items) <$> products s !! pid.
Proof. apply lookup_apply_items. Qed.

Lemma stock_of_settled items s pid :
  stock_of (settled items s) pid = (λ x, x - demand pid items) <$> stock_of s pid.
Proof.
  unfold stock_of. rewrite lookup_settled.
  by destruct (products s !! pid).
Qed.

Lemma settled_nil s : settled [] s = s.
Proof. by destruct s. Qed.

Lemma settled_snoc earlier item s :
  set_products (alter (decrement (Quantity item)) (ProductID item)) (settled earlier s)
  = settled (earlier ++ [item]) s.
Proof. unfold settled, set_products; simpl. by rewrite foldl_app. Qed.

(** ** The line-item loop *)

Lemma loop_calm_tail e i n : loop_calm e i (S n) → loop_calm e (S i) n.
Proof.
  intros H j Hj. specialize (H (S j) ltac:(lia)).
  by replace (i + S j)%nat with (S i + j)%nat in H by lia.
Qed.

Lemma loop_calm_head e i n :
  loop_calm e i (S n) → select_err e i = false ∧ update_err e i = false.
Proof. intros H. specialize (H 0%nat ltac:(lia)). by rewrite Nat.add_0_r in H. Qed.

Lemma calm_loop_calm t i n : loop_calm (calm t) i n.
Proof. by intros j _. Qed.

(** One turn of the loop on a line item that passes its check. *)
Lemma settle_items_step e i item rest earlier s :
  select_err e i = false → update_err e i = false →
  in_stock s earlier item = true →
  settle_items e i (item :: rest) (settled earlier s)
  = settle_items e (S i) rest (settled (earlier ++ [item]) s).
Proof.
  intros Hsel Hupd Hin. unfold in_stock in Hin.
  destruct (products s !! ProductID item) as [p|] eqn:Hp; [|done].
  apply Z.leb_le in Hin.
  simpl. unfold select_for_update, exec_decrement.
  rewrite Hsel, Hupd, lookup_settled, Hp. simpl.
  destruct (Z.ltb_spec (p_stock p - demand (ProductID item) earlier) (Quantity item));
    [lia|].
  by rewrite settled_snoc.
Qed.

Lemma settle_items_completed items : ∀ e i earlier s,
  loop_calm e i (length items) →
  satisfied_from s earlier items = true →
  settle_items e i items (settled earlier s) = Completed (settled (earlier ++ items) s).
Proof.
  induction items as [|item rest IH]; intros e i earlier s Hcalm Hsat.
  - by rewrite app_nil_r.
  - simpl in Hsat. apply andb_true_iff in Hsat as [Hin Hsat].
    destruct (loop_calm_head _ _ _ Hcalm) as [Hsel Hupd].
    rewrite settle_items_step by done.
    rewrite (IH e (S i) (earlier ++ [item]) s (loop_calm_tail _ _ _ Hcalm) Hsat).
    by rewrite <- app_assoc.
Qed.

(** The turn of the loop on the first line item that does not pass. *)
Lemma settle_items_stop e i bad post earlier s :
  select_err e i = false →
  in_stock s earlier bad = false →
  settle_items e i (bad :: post) (settled earlier s)
  = Failing (settled earlier s) (fail_reason s earlier bad).
Proof.
  intros Hsel Hin. unfold in_stock in Hin. unfold fail_reason.
  simpl. unfold select_for_update. rewrite Hsel, lookup_settled.
  destruct (products s !! ProductID bad) as [p|] eqn:Hp; simpl; [|done].
  apply Z.leb_gt in Hin.
  by destruct (Z.ltb_spec (p_stock p - demand (ProductID bad) earlier) (Quantity bad));
    [|lia].
Qed.

Lemma settle_items_failing pre : ∀ e i earlier s bad post,
  loop_calm e i (length pre) →
  select_err e (i + length pre)%nat = false →
  satisfied_from s earlier pre = true →
  in_stock s (earlier ++ pre) bad = false →
  settle_items e i (pre ++ bad :: post) (settled earlier s)
  = Failing (settled (earlier ++ pre) s) (fail_reason s (earlier ++ pre) bad).
Proof.
  induction pre as [|item rest IH]; intros e i earlier s bad post Hcalm Hsel Hsat Hbad.
  - simpl in *. rewrite Nat.add_0_r in Hsel. rewrite app_nil_r in *.
    by apply settle_items_stop.
  - simpl in Hsat. apply andb_true_iff in Hsat as [Hin Hsat].
    destruct (loop_calm_head _ _ _ Hcalm) as [Hsel0 Hupd0].
    rewrite <- app_comm_cons, settle_items_step by done.
    replace (earlier ++ item :: rest) with ((earlier ++ [item]) ++ rest) in *
      by (by rewrite <- app_assoc).
    apply IH; try done.
    + by apply loop_calm_tail.
    + by replace (S i + length rest)%nat with (i + length (item :: rest))%nat
        by (simpl; lia).
Qed.

(** Whatever the environment does, the loop touches the products table only,
    and keeps what it does not decrement. *)
Lemma settle_items_frame items : ∀ e i tx tx',
  exit_store (settle_items e i items tx) = Some tx' →
  orders tx' = orders tx ∧ users tx' = users tx ∧ order_items tx' = order_items tx
  ∧ orders_id_seq tx' = orders_id_seq tx.
Proof.
  induction items as [|item rest IH]; intros e i tx tx' H; simpl in H.
  - by inversion H.
  - unfold select_for_update, exec_decrement in H.
    destruct (select_err e i); [done|].
    destruct (products tx !! ProductID item) as [p|]; [|by inversion H].
    destruct (p_stock p <? Quantity item); [by inversion H|].
    destruct (update_err e i); [done|]. simpl in H.
    apply IH in H. exact H.
Qed.

(** The guard of the decrement keeps every stock at or above zero. *)
Lemma settle_items_nonneg items : ∀ e i tx tx' pid,
  exit_store (settle_items e i items tx) = Some tx' →
  (∃ x, stock_of tx pid = Some x ∧ 0 ≤ x) →
  ∃ x', stock_of tx' pid = Some x' ∧ 0 ≤ x'.
Proof.
  induction items as [|item rest IH]; intros e i tx tx' pid H Hpos; simpl in H.
  - by injection H as <-.
  - unfold select_for_update, exec_decrement in H.
    destruct (select_err e i); [done|].
    destruct (products tx !! ProductID item) as [p|] eqn:Hp;
      [|by simpl in H; injection H as <-].
    destruct (Z.ltb_spec (p_stock p) (Quantity item)) as [|Hge];
      [by simpl in H; injection H as <-|].
    destruct (update_err e i); [done|]. simpl in H.
    eapply IH; [exact H|].
    unfold stock_of in *. simpl. rewrite lookup_alter. case_decide as Heq; [|done].
    subst pid. rewrite Hp. simpl. eexists; split; [done|lia].
Qed.

(** ** Settlement: the two paths *)

(** Up to the commit of the success path. *)
Lemma ProcessOrder_commits e msg w :
  begin_err e = false → loop_calm e 0 (length (Items msg)) →
  status_err e = false → commit_err e = false →
  all_satisfied (db w) (Items msg) = true →
  ProcessOrder e (Some msg) w
  = let w1 := {| db := confirmed_store msg (db w); trace := trace w ++ [Committed] |} in
    match query_email e (UserID msg) w1 with
    | None => (Some ErrEmail, w1)
    | Some userEmail =>
        (None, snd (Publish (publish_err e) QueueOrderConfirmed
                      (MConfirmed {| c_OrderID := OrderID msg; c_UserID := UserID msg;
                                     c_UserEmail := userEmail; c_Timestamp := now e |}) w1))
    end.
Proof.
  intros Hb Hloop Hst Hc Hsat. unfold ProcessOrder. rewrite Hb.
  rewrite <- (settled_nil (db w)) at 1.
  rewrite (settle_items_completed _ e 0%nat [] (db w) Hloop Hsat).
  unfold exec_set_status, Commit. by rewrite Hst, Hc.
Qed.

Lemma status_of_set_status st oid s oid' :
  status_of (set_orders (alter (with_status st) oid) s) oid'
  = if decide (oid = oid') then (λ _, st) <$> status_of s oid' else status_of s oid'.
Proof.
  unfold status_of. simpl. rewrite lookup_alter. case_decide; [|done].
  subst. by destruct (orders s !! oid').
Qed.

(** C3, as amended.  When every line item references an existing product
    whose stock, less what the earlier line items of the same message take
    from it, is at least the requested quantity, and no statement, lookup or
    publish meets an error, [ProcessOrder] returns nil and leaves: each
    product's stock decremented by the total quantity the message asks of it,
    the order's status CONFIRMED, and, in this order, the commit and then the
    [order_confirmed] event with the order id, the user id and the email
    read after the commit. *)
Theorem success_path e msg w email :
  begin_err e = false → loop_calm e 0 (length (Items msg)) →
  status_err e = false → commit_err e = false →
  email_err e = false → publish_err e = false →
  all_satisfied (db w) (Items msg) = true →
  users (db w) !! UserID msg = Some email →
  let w' := snd (ProcessOrder e (Some msg) w) in
  fst (ProcessOrder e (Some msg) w) = None
  ∧ db w' = confirmed_store msg (db w)
  ∧ (∀ pid, stock_of (db w') pid
            = (λ x, x - demand pid (Items msg)) <$> stock_of (db w) pid)
  ∧ (NoDup (ProductID <$> Items msg) →
     ∀ item, item ∈ Items msg →
       stock_of (db w') (ProductID item)
       = (λ x, x - Quantity item) <$> stock_of (db w) (ProductID item))
  ∧ status_of (db w') (OrderID msg) = (λ _, CONFIRMED) <$> status_of (db w) (OrderID msg)
  ∧ trace w' = trace w ++ [Committed; confirmed_event e msg email].
Proof.
  intros Hb Hloop Hst Hc He Hp Hsat Hu. cbv zeta.
  rewrite ProcessOrder_commits by done. cbv zeta.
  unfold query_email, Publish. rewrite He, Hp. cbn [db].
  change (users (confirmed_store msg (db w))) with (users (db w)).
  rewrite Hu. cbn [fst snd db trace].
  assert (∀ pid, stock_of (confirmed_store msg (db w)) pid
                 = (λ x, x - demand pid (Items msg)) <$> stock_of (db w) pid) as Hstock.
  { intros pid. unfold confirmed_store, stock_of at 1. simpl. apply stock_of_settled. }
  split_and!; [done|done|done| | |].
  - intros Hnd item Hin. rewrite Hstock. by rewrite demand_NoDup.
  - unfold confirmed_store. rewrite status_of_set_status.
    by rewrite decide_True.
  - by rewrite <- app_assoc.
Qed.

(** Up to the call of [failOrder] on the failure path. *)
Lemma ProcessOrder_cancels e msg w pre bad post :
  Items msg = pre ++ bad :: post →
  all_satisfied (db w) pre = true →
  in_stock (db w) pre bad = false →
  begin_err e = false → loop_calm e 0 (length pre) → select_err e (length pre) = false →
  ProcessOrder e (Some msg) w
  = (None, failOrder e (settled pre (db w)) (OrderID msg) (UserID msg)
             (fail_reason (db w) pre bad) w).
Proof.
  intros Hitems Hsat Hbad Hb Hloop Hsel.
  unfold ProcessOrder. rewrite Hb, Hitems.
  pose proof (settle_items_failing pre e 0%nat [] (db w) bad post Hloop Hsel Hsat Hbad)
    as Hexit.
  rewrite settled_nil in Hexit. simpl app in Hexit. by rewrite Hexit.
Qed.

(** What [failOrder] leaves once its status update and its commit have
    succeeded: the event follows the commit when the email is found and the
    broker takes the event, and nothing follows it otherwise. *)
Lemma failOrder_commits e tx oid uid reason w :
  status_err e = false → commit_err e = false →
  failOrder e tx oid uid reason w
  = {| db := set_orders (alter (with_status CANCELLED) oid) tx;
       trace := trace w ++ Committed ::
                  match (if email_err e then None else users tx !! uid) with
                  | Some email =>
                      if publish_err e then []
                      else [Published QueueOrderFailed
                              (MFailed {| f_OrderID := oid; f_UserID := uid;
                                          f_UserEmail := email; f_Reason := reason;
                                          f_Timestamp := now e |})]
                  | None => []
                  end |}.
Proof.
  intros Hst Hc.
  unfold failOrder, exec_set_status, Commit, query_email, Publish.
  rewrite Hst, Hc. cbn [db].
  change (users (set_orders (alter (with_status CANCELLED) oid) tx)) with (users tx).
  destruct (email_err e); [done|].
  destruct (users tx !! uid) as [email|]; [|done].
  destruct (publish_err e); [done|]. cbn [snd db trace].
  by rewrite <- app_assoc.
Qed.

(** C2, as amended.  When the line items before the k-th all pass their
    stock check and the k-th does not (its product is missing, or the stock
    read under the lock is below its quantity), and neither the opening of
    the transaction, nor a stock statement up to the k-th line item, nor the
    CANCELLED status update, nor the commit meets an error, [ProcessOrder]
    returns nil and leaves: the decrements of the line items before the k-th
    and no other, the order's status CANCELLED, both committed together.
    After the commit the [order_failed] event is published exactly when the
    user's email is found and the broker takes the event; its reason reads
    [Product #<id> not found], or [Insufficient stock for <name>.
    Available: <stock under the lock>, Requested: <quantity>].  When the
    email is not found or the publish fails, nothing follows the commit. *)
Theorem failure_path e msg w pre bad post :
  Items msg = pre ++ bad :: post →
  all_satisfied (db w) pre = true →
  in_stock (db w) pre bad = false →
  begin_err e = false → loop_calm e 0 (length pre) → select_err e (length pre) = false →
  status_err e = false → commit_err e = false →
  let w' := snd (ProcessOrder e (Some msg) w) in
  let reason :=
    match products (db w) !! ProductID bad with
    | None => "Product #" +:+ pretty (ProductID bad) +:+ " not found"
    | Some p =>
        "Insufficient stock for " +:+ p_name p
          +:+ ". Available: " +:+ pretty (p_stock p - demand (ProductID bad) pre)
          +:+ ", Requested: " +:+ pretty (Quantity bad)
    end in
  fst (ProcessOrder e (Some msg) w) = None
  ∧ db w' = set_orders (alter (with_status CANCELLED) (OrderID msg)) (settled pre (db w))
  ∧ (∀ pid, stock_of (db w') pid = (λ x, x - demand pid pre) <$> stock_of (db w) pid)
  ∧ status_of (db w') (OrderID msg) = (λ _, CANCELLED) <$> status_of (db w) (OrderID msg)
  ∧ trace w'
    = trace w ++ Committed ::
        match (if email_err e then None else users (db w) !! UserID msg) with
        | Some email =>
            if publish_err e then []
            else [Published "order_failed"
                    (MFailed {| f_OrderID := OrderID msg; f_UserID := UserID msg;
                                f_UserEmail := email; f_Reason := reason;
                                f_Timestamp := now e |})]
        | None => []
        end.
Proof.
  intros Hitems Hsat Hbad Hb Hloop Hsel Hst Hc. cbv zeta.
  rewrite (ProcessOrder_cancels e msg w pre bad post) by done.
  rewrite failOrder_commits by done.
  cbn [fst snd db trace].
  split_and!; [done|done| | |done].
  - intros pid. unfold stock_of at 1. simpl. apply stock_of_settled.
  - rewrite status_of_set_status. by rewrite decide_True.
Qed.

Lemma success_path_witness :
  let e := calm 1 in
  let msg := placed [line 1 2] in
  let w := shop 5 10 in
  let w' := snd (ProcessOrder e (Some msg) w) in
  fst (ProcessOrder e (Some msg) w) = None
  ∧ db w' = confirmed_store msg (db w)
  ∧ (∀ pid, stock_of (db w') pid
            = (λ x, x - demand pid (Items msg)) <$> stock_of (db w) pid)
  ∧ (NoDup (ProductID <$> Items msg) →
     ∀ item, item ∈ Items msg →
       stock_of (db w') (ProductID item)
       = (λ x, x - Quantity item) <$> stock_of (db w) (ProductID item))
  ∧ status_of (db w') (OrderID msg) = (λ _, CONFIRMED) <$> status_of (db w) (OrderID msg)
  ∧ trace w' = trace w ++ [Committed; confirmed_event e msg "buyer@example.org"].
Proof.
  apply (success_path (calm 1) (placed [line 1 2]) (shop 5 10) "buyer@example.org");
    try reflexivity.
  apply calm_loop_calm.
Defined.

(** The scenario of the specification: stock 5, two asked, three left. *)
Example settle_one_line :
  let w' := snd (ProcessOrder (calm 1) (Some (placed [line 1 2])) (shop 5 10)) in
  stock_of (db w') 1 = Some 3 ∧ status_of (db w') 7 = Some CONFIRMED.
Proof. by vm_compute. Qed.

(** C3 as stated fails on a message with two lines for one product: each
    line on its own is covered by the stock of 5, the second is not once the
    first has taken 3; the order is cancelled, not confirmed. *)
Lemma each_in_stock_not_confirmed :
  let msg := placed [line 1 3; line 1 3] in
  let w := shop 5 10 in
  let w' := snd (ProcessOrder (calm 1) (Some msg) w) in
  each_in_stock (db w) (Items msg) = true
  ∧ status_of (db w') 7 = Some CANCELLED
  ∧ stock_of (db w') 1 = Some 2
  ∧ outbox w'
    = [(QueueOrderFailed,
        MFailed {| f_OrderID := 7; f_UserID := 3; f_UserEmail := "buyer@example.org";
                   f_Reason := "Insufficient stock for Laptop. Available: 2, Requested: 3";
                   f_Timestamp := 1 |})].
Proof. by vm_compute. Qed.

Lemma failure_path_witness :
  let e := calm 1 in
  let msg := placed [line 1 2; line 2 100] in
  let w := shop 5 10 in
  let w' := snd (ProcessOrder e (Some msg) w) in
  fst (ProcessOrder e (Some msg) w) = None
  ∧ db w' = set_orders (alter (with_status CANCELLED) 7) (settled [line 1 2] (db w))
  ∧ (∀ pid, stock_of (db w') pid
            = (λ x, x - demand pid [line 1 2]) <$> stock_of (db w) pid)
  ∧ status_of (db w') 7 = (λ _, CANCELLED) <$> status_of (db w) 7
  ∧ trace w'
    = trace w ++ Committed ::
        [Published "order_failed"
           (MFailed {| f_OrderID := 7; f_UserID := 3; f_UserEmail := "buyer@example.org";
                       f_Reason := "Insufficient stock for " +:+ "Phone"
                                     +:+ ". Available: " +:+ pretty (10 - 0)
                                     +:+ ", Requested: " +:+ pretty 100;
                       f_Timestamp := 1 |})].
Proof.
  apply (failure_path (calm 1) (placed [line 1 2; line 2 100]) (shop 5 10)
           [line 1 2] (line 2 100) []); try reflexivity.
  apply calm_loop_calm.
Defined.

(** C2 as stated fails: the failed event depends on the lookup of the
    user's email, which [failOrder] makes after its commit.  For a message
    whose user has no row, and for one whose lookup meets an error, with the
    second line item failing its check: nil is returned, the order is
    CANCELLED, the first decrement is kept, and no event is published. *)
Lemma failed_event_not_published :
  let msg := {| OrderID := 7; UserID := 4; Items := [line 1 2; line 2 100];
                TotalAmount := 0%float; Timestamp := 0 |} in
  let r := ProcessOrder (calm 1) (Some msg) (shop 5 10) in
  let r' := ProcessOrder (with_email_err (calm 1)) (Some (placed [line 1 2; line 2 100]))
              (shop 5 10) in
  all_satisfied (db (shop 5 10)) [line 1 2] = true
  ∧ in_stock (db (shop 5 10)) [line 1 2] (line 2 100) = false
  ∧ (fst r = None ∧ status_of (db (snd r)) 7 = Some CANCELLED
     ∧ stock_of (db (snd r)) 1 = Some 3 ∧ stock_of (db (snd r)) 2 = Some 10
     ∧ outbox (snd r) = [])
  ∧ (fst r' = None ∧ status_of (db (snd r')) 7 = Some CANCELLED
     ∧ stock_of (db (snd r')) 1 = Some 3 ∧ stock_of (db (snd r')) 2 = Some 10
     ∧ outbox (snd r') = []).
Proof. by vm_compute. Qed.

(** The second scenario of the specification. *)
Example settle_two_lines :
  let w' := snd (ProcessOrder (calm 1) (Some (placed [line 1 2; line 2 100])) (shop 5 10)) in
  stock_of (db w') 1 = Some 3 ∧ stock_of (db w') 2 = Some 10
  ∧ status_of (db w') 7 = Some CANCELLED
  ∧ outbox w'
    = [(QueueOrderFailed,
        MFailed {| f_OrderID := 7; f_UserID := 3; f_UserEmail := "buyer@example.org";
                   f_Reason := "Insufficient stock for Phone. Available: 10, Requested: 100";
                   f_Timestamp := 1 |})].
Proof. by vm_compute. Qed.

(** ** Settlement: after the commit *)

Lemma outbox_committed s w :
  outbox {| db := s; trace := trace w ++ [Committed] |} = outbox w.
Proof. unfold outbox; simpl. rewrite omap_app. simpl. by rewrite app_nil_r. Qed.

(** C6 as stated fails: with the broker refusing the publish, the handler
    still returns nil. *)
Lemma publish_failure_returns_nil :
  let e := with_publish_err (calm 1) in
  let r := ProcessOrder e (Some (placed [line 1 2])) (shop 5 10) in
  publish_err e = true
  ∧ fst r = None
  ∧ status_of (db (snd r)) 7 = Some CONFIRMED
  ∧ stock_of (db (snd r)) 1 = Some 3.
Proof. by vm_compute. Qed.

(** C6, as amended.  On the success path with the CONFIRMED status
    committed, a failed publish of the confirmed event is not returned:
    [ProcessOrder] returns nil, the committed status and decrements stay, and
    no event is on the queue. *)
Theorem publish_failure_swallowed e msg w email :
  begin_err e = false → loop_calm e 0 (length (Items msg)) →
  status_err e = false → commit_err e = false → email_err e = false →
  all_satisfied (db w) (Items msg) = true →
  users (db w) !! UserID msg = Some email →
  publish_err e = true →
  let w' := snd (ProcessOrder e (Some msg) w) in
  fst (ProcessOrder e (Some msg) w) = None
  ∧ db w' = confirmed_store msg (db w)
  ∧ trace w' = trace w ++ [Committed]
  ∧ outbox w' = outbox w.
Proof.
  intros Hb Hloop Hst Hc He Hsat Hu Hp. cbv zeta.
  rewrite ProcessOrder_commits by done. cbv zeta.
  unfold query_email, Publish. rewrite He, Hp. cbn [db].
  change (users (confirmed_store msg (db w))) with (users (db w)).
  rewrite Hu. cbn [fst snd db trace].
  split_and!; [done|done|done|]. apply outbox_committed.
Qed.

Lemma publish_failure_swallowed_witness :
  let e := with_publish_err (calm 1) in
  let msg := placed [line 1 2] in
  let w := shop 5 10 in
  let w' := snd (ProcessOrder e (Some msg) w) in
  fst (ProcessOrder e (Some msg) w) = None
  ∧ db w' = confirmed_store msg (db w)
  ∧ trace w' = trace w ++ [Committed]
  ∧ outbox w' = outbox w.
Proof.
  apply (publish_failure_swallowed (with_publish_err (calm 1)) (placed [line 1 2])
           (shop 5 10) "buyer@example.org"); try reflexivity.
  apply calm_loop_calm.
Defined.

(** C10.  On the success path, when the lookup of the user's email after the
    commit fails (an error, or no such user), [ProcessOrder] returns an
    error although the order is committed as CONFIRMED with its decrements;
    nothing is published by that execution, and the consume loop rejects the
    message with requeue, so that it heads the queue again with the order
    already CONFIRMED. *)
Theorem email_failure_after_commit e msg w queue :
  begin_err e = false → loop_calm e 0 (length (Items msg)) →
  status_err e = false → commit_err e = false →
  all_satisfied (db w) (Items msg) = true →
  email_err e = true ∨ users (db w) !! UserID msg = None →
  let d := {| d_env := e; d_body := Some msg |} in
  let w' := {| db := confirmed_store msg (db w); trace := trace w ++ [Committed] |} in
  ProcessOrder e (Some msg) w = (Some ErrEmail, w')
  ∧ outbox w' = outbox w
  ∧ serve handle 1 (d :: queue) w = ([(d, NackRequeue)], d :: queue, w')
  ∧ status_of (db w') (OrderID msg) = (λ _, CONFIRMED) <$> status_of (db w) (OrderID msg)
  ∧ (∀ pid, stock_of (db w') pid
            = (λ x, x - demand pid (Items msg)) <$> stock_of (db w) pid).
Proof.
  intros Hb Hloop Hst Hc Hsat Hmail. cbv zeta.
  assert (ProcessOrder e (Some msg) w
          = (Some ErrEmail,
             {| db := confirmed_store msg (db w); trace := trace w ++ [Committed] |}))
    as Hrun.
  { rewrite ProcessOrder_commits by done. cbv zeta.
    unfold query_email. cbn [db].
    change (users (confirmed_store msg (db w))) with (users (db w)).
    destruct Hmail as [-> | ->]; [done|]. by destruct (email_err e). }
  split_and!.
  - done.
  - apply outbox_committed.
  - unfold serve, handle. cbn [d_env d_body]. by rewrite Hrun.
  - cbn [db]. unfold confirmed_store. rewrite status_of_set_status.
    by rewrite decide_True.
  - intros pid. cbn [db]. unfold confirmed_store, stock_of at 1. simpl.
    apply stock_of_settled.
Qed.

Lemma email_failure_after_commit_witness :
  let e := with_email_err (calm 1) in
  let msg := placed [line 1 2] in
  let w := shop 5 10 in
  let d := {| d_env := e; d_body := Some msg |} in
  let w' := {| db := confirmed_store msg (db w); trace := trace w ++ [Committed] |} in
  ProcessOrder e (Some msg) w = (Some ErrEmail, w')
  ∧ outbox w' = outbox w
  ∧ serve handle 1 (d :: []) w = ([(d, NackRequeue)], d :: [], w')
  ∧ status_of (db w') (OrderID msg) = (λ _, CONFIRMED) <$> status_of (db w) (OrderID msg)
  ∧ (∀ pid, stock_of (db w') pid
            = (λ x, x - demand pid (Items msg)) <$> stock_of (db w) pid).
Proof.
  apply (email_failure_after_commit (with_email_err (calm 1)) (placed [line 1 2])
           (shop 5 10) []); try reflexivity.
  - apply calm_loop_calm.
  - by left.
Defined.

(** ** Settlement: what any execution can do to the database *)

(** Whatever the environment does, an execution either leaves the database
    as it was or commits the working copy of the loop with the order set to
    CONFIRMED or CANCELLED. *)
Lemma ProcessOrder_db e body w :
  db (snd (ProcessOrder e body w)) = db w
  ∨ ∃ msg tx st,
      body = Some msg
      ∧ exit_store (settle_items e 0 (Items msg) (db w)) = Some tx
      ∧ is_terminal st = true
      ∧ db (snd (ProcessOrder e body w))
        = set_orders (alter (with_status st) (OrderID msg)) tx.
Proof.
  destruct body as [msg|]; [|by left]. unfold ProcessOrder.
  destruct (begin_err e); [by left|].
  destruct (settle_items e 0 (Items msg) (db w)) as [tx|tx reason|err] eqn:Hexit;
    [| |by left].
  - unfold exec_set_status, Commit. destruct (status_err e); [by left|].
    destruct (commit_err e); [by left|].
    right. exists msg, tx, CONFIRMED. split_and!; [done|by rewrite Hexit|done|].
    destruct (query_email _ _ _); [|done].
    unfold Publish. by destruct (publish_err e).
  - unfold failOrder, exec_set_status, Commit. cbn [snd].
    destruct (status_err e); [by left|].
    destruct (commit_err e); [by left|].
    right. exists msg, tx, CANCELLED. split_and!; [done|by rewrite Hexit|done|].
    destruct (query_email _ _ _); [|done].
    unfold Publish. by destruct (publish_err e).
Qed.

(** The status of an order after one execution: untouched when the message
    names another order, CONFIRMED or CANCELLED or untouched otherwise. *)
Lemma ProcessOrder_status e body w oid :
  status_of (db (snd (ProcessOrder e body w))) oid = status_of (db w) oid
  ∨ ∃ msg st,
      body = Some msg ∧ OrderID msg = oid ∧ is_terminal st = true
      ∧ status_of (db (snd (ProcessOrder e body w))) oid
        = (λ _, st) <$> status_of (db w) oid.
Proof.
  destruct (ProcessOrder_db e body w) as [-> | (msg & tx & st & -> & Hexit & Hst & ->)];
    [by left|].
  apply settle_items_frame in Hexit as (Horders & _).
  rewrite status_of_set_status.
  assert (status_of tx oid = status_of (db w) oid) as ->
    by (unfold status_of; by rewrite Horders).
  case_decide; [|by left].
  right. by exists msg, st.
Qed.

Lemma ProcessOrder_nonneg e body w pid :
  (∃ x, stock_of (db w) pid = Some x ∧ 0 ≤ x) →
  ∃ x', stock_of (db (snd (ProcessOrder e body w))) pid = Some x' ∧ 0 ≤ x'.
Proof.
  intros Hpos.
  destruct (ProcessOrder_db e body w) as [-> | (msg & tx & st & -> & Hexit & Hst & ->)];
    [done|].
  by apply (settle_items_nonneg _ _ _ _ _ pid Hexit) in Hpos.
Qed.

Lemma run_worker_cons d ds w :
  run_worker (d :: ds) w
  = (dispose (fst (handle d w)) :: fst (run_worker ds (snd (handle d w))),
     snd (run_worker ds (snd (handle d w)))).
Proof.
  unfold run_worker. simpl.
  destruct (handle d w) as [err w1]. simpl.
  by destruct (consume_loop handle ds w1).
Qed.

(** C1 as stated fails.  Order 7 asks two of the three laptops; the email
    lookup meets an error after the commit, so the first delivery confirms
    the order and is requeued; the second delivery finds one laptop left and
    cancels the same order. *)
Lemma confirmed_then_cancelled :
  let d := {| d_env := with_email_err (calm 1); d_body := Some (placed [line 1 2]) |} in
  let w := shop 3 10 in
  fst (fst (serve handle 2 [d] w)) = [(d, NackRequeue); (d, Ack)]
  ∧ status_of (db (snd (serve handle 1 [d] w))) 7 = Some CONFIRMED
  ∧ status_of (db (snd (serve handle 2 [d] w))) 7 = Some CANCELLED.
Proof. by vm_compute. Qed.

(** C1, as amended.  Once an order's status is CONFIRMED or CANCELLED, it is
    CONFIRMED or CANCELLED after every sequence of deliveries handled by the
    worker (it may pass from one to the other, never back to PENDING or to
    FAILED), and it is the very same status when none of the messages names
    that order. *)
Theorem terminal_stays_terminal ds : ∀ w oid st,
  status_of (db w) oid = Some st → is_terminal st = true →
  (∃ st', status_of (db (snd (run_worker ds w))) oid = Some st' ∧ is_terminal st' = true)
  ∧ ((∀ d msg, d ∈ ds → d_body d = Some msg → OrderID msg ≠ oid) →
     status_of (db (snd (run_worker ds w))) oid = Some st).
Proof.
  induction ds as [|d ds IH]; intros w oid st Hst Hterm.
  - split; [by exists st | done].
  - rewrite run_worker_cons. cbn [snd].
    change (handle d w) with (ProcessOrder (d_env d) (d_body d) w).
    destruct (ProcessOrder_status (d_env d) (d_body d) w oid)
      as [Heq | (msg & st1 & Hbody & Hoid & Hterm1 & Heq)].
    + rewrite Hst in Heq. destruct (IH _ _ _ Heq Hterm) as [IH1 IH2].
      split; [done|]. intros Hother. apply IH2.
      intros d' msg' Hin. apply Hother. by right.
    + rewrite Hst in Heq. simpl in Heq. destruct (IH _ _ _ Heq Hterm1) as [IH1 _].
      split; [done|]. intros Hother. exfalso.
      apply (Hother d msg); [by left|done|done].
Qed.

Lemma terminal_stays_terminal_witness :
  let d := {| d_env := with_email_err (calm 1); d_body := Some (placed [line 1 2]) |} in
  let w := snd (run_worker [d] (shop 3 10)) in
  (∃ st', status_of (db (snd (run_worker [d; d] w))) 7 = Some st' ∧ is_terminal st' = true)
  ∧ ((∀ d' msg, d' ∈ [d; d] → d_body d' = Some msg → OrderID msg ≠ 7) →
     status_of (db (snd (run_worker [d; d] w))) 7 = Some CONFIRMED).
Proof.
  apply (terminal_stays_terminal
           [ {| d_env := with_email_err (calm 1); d_body := Some (placed [line 1 2]) |};
             {| d_env := with_email_err (calm 1); d_body := Some (placed [line 1 2]) |} ]
           (snd (run_worker
                   [ {| d_env := with_email_err (calm 1);
                        d_body := Some (placed [line 1 2]) |} ] (shop 3 10)))
           7 CONFIRMED); reflexivity.
Defined.

(** C7.  A product whose stock is not negative has a stock that is not
    negative after each execution of any sequence of deliveries handled one
    after the other, whatever the environment does: a decrement is made only
    under the guard that the stock read in the transaction covers it. *)
Theorem stock_never_negative ds : ∀ w pid x n,
  stock_of (db w) pid = Some x → 0 ≤ x →
  ∃ x', stock_of (db (snd (run_worker (take n ds) w))) pid = Some x' ∧ 0 ≤ x'.
Proof.
  induction ds as [|d ds IH]; intros w pid x n Hx Hpos.
  - rewrite take_nil. by exists x.
  - destruct n as [|n]; [by exists x|].
    rewrite firstn_cons, run_worker_cons. cbn [snd].
    change (handle d w) with (ProcessOrder (d_env d) (d_body d) w).
    destruct (ProcessOrder_nonneg (d_env d) (d_body d) w pid) as (x1 & Hx1 & Hpos1);
      [by exists x|].
    by apply (IH _ _ x1).
Qed.

Lemma stock_never_negative_witness :
  let d := {| d_env := calm 1; d_body := Some (placed [line 1 2]) |} in
  ∃ x', stock_of (db (snd (run_worker (take 3 [d; d; d; d]) (shop 5 10)))) 1 = Some x'
        ∧ 0 ≤ x'.
Proof.
  apply (stock_never_negative
           [ {| d_env := calm 1; d_body := Some (placed [line 1 2]) |};
             {| d_env := calm 1; d_body := Some (placed [line 1 2]) |};
             {| d_env := calm 1; d_body := Some (placed [line 1 2]) |};
             {| d_env := calm 1; d_body := Some (placed [line 1 2]) |} ]
           (shop 5 10) 1 5 3%nat); [reflexivity | lia].
Defined.

(** ** Settlement: redelivery *)

(** C5 as stated fails.  The first delivery confirms order 7 and takes two
    of the five laptops; its email lookup meets an error, so it is requeued;
    the second delivery, with the order CONFIRMED, takes two more. *)
Lemma redelivery_decrements_twice :
  let d := {| d_env := with_email_err (calm 1); d_body := Some (placed [line 1 2]) |} in
  let w1 := snd (serve handle 1 [d] (shop 5 10)) in
  let w2 := snd (serve handle 2 [d] (shop 5 10)) in
  status_of (db w1) 7 = Some CONFIRMED
  ∧ stock_of (db w1) 1 = Some 3
  ∧ stock_of (db w2) 1 = Some 1.
Proof. by vm_compute. Qed.

(** C5, as amended.  [ProcessOrder] does not look at the order's status: for
    a message whose order is already CONFIRMED or CANCELLED, when every line
    item passes its stock check again and the statements up to the commit
    meet no error, each product's stock is decremented again by the quantity
    the message asks of it. *)
Theorem redelivery_decrements_again e msg w st :
  status_of (db w) (OrderID msg) = Some st → is_terminal st = true →
  begin_err e = false → loop_calm e 0 (length (Items msg)) →
  status_err e = false → commit_err e = false →
  all_satisfied (db w) (Items msg) = true →
  ∀ pid, stock_of (db (snd (ProcessOrder e (Some msg) w))) pid
         = (λ x, x - demand pid (Items msg)) <$> stock_of (db w) pid.
Proof.
  intros _ _ Hb Hloop Hst Hc Hsat pid.
  rewrite ProcessOrder_commits by done. cbv zeta.
  assert (∀ w', db w' = confirmed_store msg (db w) →
                stock_of (db w') pid
                = (λ x, x - demand pid (Items msg)) <$> stock_of (db w) pid) as Hdb.
  { intros w' ->. unfold confirmed_store, stock_of at 1. simpl. apply stock_of_settled. }
  destruct (query_email _ _ _); cbn [snd]; [|by apply Hdb].
  unfold Publish. by destruct (publish_err e); apply Hdb.
Qed.

Lemma redelivery_decrements_again_witness :
  let e := calm 2 in
  let msg := placed [line 1 2] in
  let w := snd (ProcessOrder (with_email_err (calm 1)) (Some msg) (shop 5 10)) in
  status_of (db w) 7 = Some CONFIRMED
  ∧ stock_of (db (snd (ProcessOrder e (Some msg) w))) 1
    = (λ x, x - demand 1 (Items msg)) <$> stock_of (db w) 1.
Proof.
  split; [reflexivity|].
  apply (redelivery_decrements_again (calm 2) (placed [line 1 2])
           (snd (ProcessOrder (with_email_err (calm 1)) (Some (placed [line 1 2]))
                   (shop 5 10)))
           CONFIRMED); try reflexivity.
  apply calm_loop_calm.
Defined.

(** ** Settlement: database errors *)

(** X1.  An error that [ProcessOrder] returns before its commit leaves the
    database and the broker as they were, whatever was decremented in the
    transaction so far: the deferred rollback drops the working copy.  Only
    the error of the email lookup, which comes after the commit, does not. *)
Lemma ProcessOrder_error_rolls_back e body w err :
  fst (ProcessOrder e body w) = Some err → err ≠ ErrEmail →
  snd (ProcessOrder e body w) = w.
Proof.
  destruct body as [msg|]; [|done]. unfold ProcessOrder.
  destruct (begin_err e); [done|].
  destruct (settle_items e 0 (Items msg) (db w)) as [tx|tx reason|err']; [|done|done].
  unfold exec_set_status, Commit. destruct (status_err e); [done|].
  destruct (commit_err e); [done|].
  destruct (query_email _ _ _); cbn [fst]; [done|].
  intros [= <-]. done.
Qed.

(** What the code does on the failing input of C4: the commit of the
    failure branch meets an error; [failOrder] logs it and returns, and
    [ProcessOrder] returns nil.  The transaction is rolled back and the order
    stays PENDING, but the message is acknowledged and leaves the queue. *)
Theorem failure_branch_commit_error_acked :
  let d := {| d_env := with_commit_err (calm 1);
              d_body := Some (placed [line 1 2; line 2 100]) |} in
  let w := shop 5 10 in
  commit_err (d_env d) = true
  ∧ in_stock (db w) [line 1 2] (line 2 100) = false
  ∧ ProcessOrder (d_env d) (d_body d) w = (None, w)
  ∧ serve handle 1 [d] w = ([(d, Ack)], [], w)
  ∧ status_of (db w) 7 = Some PENDING.
Proof. by vm_compute. Qed.

(** The same for a failed update of the status to CANCELLED. *)
Example failure_branch_status_error_acked :
  let e := {| begin_err := false; select_err := λ _, false; update_err := λ _, false;
              status_err := true; commit_err := false; email_err := false;
              publish_err := false; now := 1 |} in
  ProcessOrder e (Some (placed [line 1 2; line 2 100])) (shop 5 10) = (None, shop 5 10).
Proof. by vm_compute. Qed.

(** ** Broker client: the acknowledgement policy *)

Section ConsumePolicy.
Context {D E St : Type}.
Variable handler : D → St → option E * St.

Lemma consume_loop_length msgs : ∀ st,
  length (fst (consume_loop handler msgs st)) = length msgs.
Proof.
  induction msgs as [|msg rest IH]; intros st; [done|]. simpl.
  destruct (handler msg st) as [err st1]. specialize (IH st1).
  destruct (consume_loop handler rest st1). simpl in *. by rewrite IH.
Qed.

(** The answer to the i-th delivery depends on nothing but what the handler
    returns for it in the state the earlier deliveries left. *)
Lemma consume_loop_lookup msgs : ∀ st i msg,
  msgs !! i = Some msg →
  fst (consume_loop handler msgs st) !! i
  = Some (dispose (fst (handler msg (snd (consume_loop handler (take i msgs) st))))).
Proof.
  induction msgs as [|m rest IH]; intros st i msg Hi; [done|].
  destruct i as [|i].
  - injection Hi as ->. simpl.
    destruct (handler msg st) as [err st1]. by destruct (consume_loop handler rest st1).
  - simpl in Hi. simpl.
    destruct (handler m st) as [err st1]. specialize (IH st1 i msg Hi).
    destruct (consume_loop handler rest st1) as [ds st2].
    destruct (consume_loop handler (take i rest) st1) as [ds' st2']. by simpl in *.
Qed.

Lemma Consume_started msgs st :
  Consume handler false false msgs st = (None, consume_loop handler msgs st).
Proof. reflexivity. Qed.

(** When the QoS setting or the registration fails, [Consume] returns the
    error and no message is handled. *)
Lemma Consume_not_started qos_fails register_fails msgs st :
  qos_fails || register_fails = true →
  ∃ err, Consume handler qos_fails register_fails msgs st = (Some err, ([], st)).
Proof. destruct qos_fails, register_fails; intros; try done; by eexists. Qed.

(** A message the handler never accepts is requeued delivery after
    delivery, and heads the queue after any number of them. *)
Lemma serve_poison msg rest n : ∀ st,
  (∀ st', fst (handler msg st') ≠ None) →
  fst (fst (serve handler n (msg :: rest) st)) = replicate n (msg, NackRequeue)
  ∧ snd (fst (serve handler n (msg :: rest) st)) = msg :: rest.
Proof.
  induction n as [|n IH]; intros st Hbad; [done|]. simpl.
  specialize (Hbad st) as Hst. destruct (handler msg st) as [[err|] st1]; [|done].
  simpl. destruct (IH st1 Hbad) as [IH1 IH2].
  destruct (serve handler n (msg :: rest) st1) as [[log q] st2]. simpl in *.
  by rewrite IH1, IH2.
Qed.

(** C8.  For every message the consume loop receives, the answer is an
    acknowledgement exactly when the handler returns nil and a rejection
    with requeue exactly when it returns an error; on the broker's side the
    acknowledged message is gone from the queue and the rejected one is
    still at its head; and a message the handler never accepts is rejected
    with requeue at each of any number of deliveries: nothing in the loop
    counts them. *)
Theorem consume_ack_policy :
  (∀ msgs st i msg,
     msgs !! i = Some msg →
     let st_i := snd (consume_loop handler (take i msgs) st) in
     (fst (handler msg st_i) = None →
      fst (consume_loop handler msgs st) !! i = Some Ack)
     ∧ (fst (handler msg st_i) ≠ None →
        fst (consume_loop handler msgs st) !! i = Some NackRequeue))
  ∧ (∀ msgs st, length (fst (consume_loop handler msgs st)) = length msgs)
  ∧ (∀ msg rest st,
       (fst (handler msg st) = None →
        fst (serve handler 1 (msg :: rest) st) = ([(msg, Ack)], rest))
       ∧ (fst (handler msg st) ≠ None →
          fst (serve handler 1 (msg :: rest) st) = ([(msg, NackRequeue)], msg :: rest)))
  ∧ (∀ msg rest st n,
       (∀ st', fst (handler msg st') ≠ None) →
       fst (serve handler n (msg :: rest) st)
       = (replicate n (msg, NackRequeue), msg :: rest)).
Proof.
  split_and!.
  - intros msgs st i msg Hi st_i. subst st_i.
    rewrite (consume_loop_lookup msgs st i msg Hi).
    destruct (fst (handler msg _)); by split.
  - intros. apply consume_loop_length.
  - intros msg rest st. simpl.
    destruct (handler msg st) as [[err|] st1]; by split.
  - intros msg rest st n Hbad.
    destruct (serve_poison msg rest n st Hbad) as [H1 H2].
    destruct (serve handler n (msg :: rest) st) as [[log q] st2]. simpl in *.
    by rewrite H1, H2.
Qed.
End ConsumePolicy.

(** An unparseable body on the [order_placed] queue: ten deliveries, ten
    rejections with requeue, and the body is still in the queue. *)
Lemma consume_ack_policy_witness :
  let poison := {| d_env := calm 1; d_body := None |} in
  fst (serve handle 10 [poison] (shop 5 10))
  = (replicate 10 (poison, NackRequeue), [poison]).
Proof.
  apply (proj2 (proj2 (proj2 (consume_ack_policy handle)))
           {| d_env := calm 1; d_body := None |} [] (shop 5 10) 10%nat).
  intros st'. simpl. discriminate.
Defined.

(** ** Order placement producer *)

Lemma inserts_calm_tail e i n : inserts_calm e i (S n) → inserts_calm e (S i) n.
Proof.
  intros H j Hj. specialize (H (S j) ltac:(lia)).
  by replace (i + S j)%nat with (S i + j)%nat in H by lia.
Qed.

Lemma co_calm_inserts_calm t i n : inserts_calm (co_calm t) i n.
Proof. by intros j _. Qed.

(** The first loop accepts a request whose products all exist. *)
Lemma price_items_ok items : ∀ e i s acc,
  (∀ j, (j < length items)%nat → co_select_err e (i + j)%nat = false) →
  Forall (λ item, is_Some (products s !! ProductID item)) items →
  ∃ total, price_items e i items s acc = Priced total.
Proof.
  induction items as [|item rest IH]; intros e i s acc Hsel Hall; [by eexists|].
  simpl. specialize (Hsel 0%nat ltac:(simpl; lia)) as Hsel0.
  rewrite Nat.add_0_r in Hsel0. rewrite Hsel0.
  apply Forall_cons in Hall as [[p Hp] Hall]. rewrite Hp.
  apply IH; [|done]. intros j Hj. specialize (Hsel (S j) ltac:(simpl; lia)).
  by replace (i + S j)%nat with (S i + j)%nat in Hsel by lia.
Qed.

(** The second loop appends one row per line, in the order of the request. *)
Lemma insert_items_ok items : ∀ e i orderID tx,
  inserts_calm e i (length items) →
  insert_items e i items orderID tx
  = Some (set_order_items (λ l, l ++ order_rows e i items orderID (products tx)) tx).
Proof.
  induction items as [|item rest IH]; intros e i orderID tx Hcalm.
  - simpl. unfold set_order_items. rewrite app_nil_r. by destruct tx.
  - simpl. specialize (Hcalm 0%nat ltac:(simpl; lia)) as H0.
    rewrite Nat.add_0_r in H0. rewrite H0.
    rewrite IH by (by apply inserts_calm_tail).
    unfold set_order_items. simpl. by rewrite <- app_assoc.
Qed.

Lemma order_rows_lines items : ∀ e i orderID m,
  (λ r, {| ProductID := oi_product r; Quantity := oi_quantity r |})
    <$> order_rows e i items orderID m = items
  ∧ Forall (λ r, oi_order r = orderID) (order_rows e i items orderID m).
Proof.
  induction items as [|[pid q] rest IH]; intros e i orderID m; [done|].
  destruct (IH e (S i) orderID m) as [Hlines Hall]. split.
  - csimpl. by rewrite Hlines.
  - by constructor.
Qed.

Lemma price_items_rejected items : ∀ e i s acc r,
  price_items e i items s acc = Rejected r → ∀ oid st, r ≠ Accepted oid st.
Proof.
  induction items as [|item rest IH]; intros e i s acc r H oid st; [done|].
  simpl in H. destruct (co_select_err e i); [by injection H as <-|].
  destruct (products s !! ProductID item); [|by injection H as <-].
  by eapply IH.
Qed.

(** Whatever the environment does, [CreateOrder] ends in one of three ways:
    nothing committed and nothing published; the order committed and nothing
    published; the order committed and then the placement event published. *)
Lemma CreateOrder_trace e userID bound w :
  let r := CreateOrder e userID bound w in
  (trace (snd r) = trace w
   ∧ orders (db (snd r)) = orders (db w) ∧ order_items (db (snd r)) = order_items (db w)
   ∧ ∀ oid st, fst r ≠ Accepted oid st)
  ∨ (trace (snd r) = trace w ++ [Committed]
     ∧ fst r = InternalServerError "Order created but failed to queue for processing")
  ∨ (∃ m, trace (snd r) = trace w ++ [Committed; Published QueueOrderPlaced (MPlaced m)]
          ∧ fst r = Accepted (OrderID m) PENDING).
Proof.
  cbv zeta. destruct bound as [err|req]; [left; by split_and!|]. unfold CreateOrder.
  destruct (co_begin_err e); [left; by split_and!|].
  destruct (price_items e 0 (req_Items req) (db w) 0) as [total|r] eqn:Hprice.
  2:{ left. split_and!; try done. by apply (price_items_rejected _ _ _ _ _ _ Hprice). }
  destruct (co_insert_order_err e); [left; by split_and!|].
  unfold insert_order.
  destruct (insert_items _ _ _ _ _) as [tx2|]; [|left; by split_and!].
  unfold Commit. destruct (co_commit_err e); [left; by split_and!|].
  unfold Publish. destruct (co_publish_err e).
  - right; left. done.
  - right; right. eexists. split; [cbn [snd trace]; by rewrite <- app_assoc | done].
Qed.

(** C9.  Whatever the environment does, [CreateOrder] publishes the
    placement event only with the commit before it; and for a request whose
    products all exist, when no statement and not the commit meets an error,
    the PENDING order and one row per line are installed by that one commit,
    after which: a successful publish gives 202 with the event on the
    [order_placed] queue; a failed publish gives a 500 answer, no event, and
    the committed order still PENDING with its lines. *)
Theorem publish_after_commit e userID bound w :
  let r := CreateOrder e userID bound w in
  ((trace (snd r) = trace w
    ∧ orders (db (snd r)) = orders (db w) ∧ order_items (db (snd r)) = order_items (db w)
    ∧ ∀ oid st, fst r ≠ Accepted oid st)
   ∨ (trace (snd r) = trace w ++ [Committed]
      ∧ fst r = InternalServerError "Order created but failed to queue for processing")
   ∨ (∃ m, trace (snd r) = trace w ++ [Committed; Published QueueOrderPlaced (MPlaced m)]
           ∧ fst r = Accepted (OrderID m) PENDING))
  ∧ ∀ req,
      bound = inr req →
      co_begin_err e = false →
      (∀ j, (j < length (req_Items req))%nat → co_select_err e j = false) →
      Forall (λ item, is_Some (products (db w) !! ProductID item)) (req_Items req) →
      co_insert_order_err e = false →
      inserts_calm e 0 (length (req_Items req)) →
      co_commit_err e = false →
      ∃ total,
        let orderID := orders_id_seq (db w) + 1 in
        let rows := order_rows e 0 (req_Items req) orderID (products (db w)) in
        let s' := placed_store e userID req total (db w) in
        price_items e 0 (req_Items req) (db w) 0 = Priced total
        ∧ orders s' = <[orderID := {| o_user := userID; o_status := PENDING;
                                      o_total := total |}]> (orders (db w))
        ∧ order_items s' = order_items (db w) ++ rows
        ∧ (λ r, {| ProductID := oi_product r; Quantity := oi_quantity r |}) <$> rows
          = req_Items req
        ∧ Forall (λ r, oi_order r = orderID) rows
        ∧ (co_publish_err e = false →
           r = (Accepted orderID PENDING,
                {| db := s';
                   trace := trace w ++ [Committed; placed_event e userID req total (db w)] |}))
        ∧ (co_publish_err e = true →
           r = (InternalServerError "Order created but failed to queue for processing",
                {| db := s'; trace := trace w ++ [Committed] |})
           ∧ outbox (snd r) = outbox w
           ∧ status_of (db (snd r)) orderID = Some PENDING).
Proof.
  cbv zeta. split; [apply CreateOrder_trace|].
  intros req -> Hb Hsel Hall Hio Hins Hc.
  destruct (price_items_ok (req_Items req) e 0%nat (db w) 0%float Hsel Hall)
    as [total Hprice].
  exists total.
  destruct (order_rows_lines (req_Items req) e 0%nat (orders_id_seq (db w) + 1)
              (products (db w))) as [Hlines Hown].
  assert (∀ b, co_publish_err e = b →
            CreateOrder e userID (inr req) w
            = if b then
                (InternalServerError "Order created but failed to queue for processing",
                 {| db := placed_store e userID req total (db w);
                    trace := trace w ++ [Committed] |})
              else
                (Accepted (orders_id_seq (db w) + 1) PENDING,
                 {| db := placed_store e userID req total (db w);
                    trace := trace w ++ [Committed;
                               placed_event e userID req total (db w)] |})) as Hrun.
  { intros b Hp. unfold CreateOrder. rewrite Hb, Hprice, Hio. unfold insert_order.
    rewrite insert_items_ok by done. unfold Commit, Publish. rewrite Hc, Hp.
    destruct b; [done|]. cbn [trace db]. by rewrite <- app_assoc. }
  split_and!; try done.
  - intros Hp. by rewrite (Hrun false Hp).
  - intros Hp. rewrite (Hrun true Hp). split_and!; [done| |].
    + apply outbox_committed.
    + cbn [snd db]. unfold status_of, placed_store. simpl.
      by rewrite lookup_insert_eq.
Qed.

Lemma publish_after_commit_witness :
  let e := co_with_publish_err (co_calm 1) in
  let req := {| req_Items := [line 1 2; line 2 1] |} in
  let w := shop 5 10 in
  let r := CreateOrder e 3 (inr req) w in
  fst r = InternalServerError "Order created but failed to queue for processing"
  ∧ outbox (snd r) = outbox w
  ∧ status_of (db (snd r)) 8 = Some PENDING
  ∧ (λ r, {| ProductID := oi_product r; Quantity := oi_quantity r |})
      <$> order_items (db (snd r)) = req_Items req.
Proof.
  cbv zeta.
  destruct (proj2 (publish_after_commit (co_with_publish_err (co_calm 1)) 3
                     (inr {| req_Items := [line 1 2; line 2 1] |}) (shop 5 10))
              {| req_Items := [line 1 2; line 2 1] |})
    as (total & _ & _ & _ & _ & _ & _ & Hfail).
  - reflexivity.
  - reflexivity.
  - intros j _. reflexivity.
  - repeat constructor; by eexists.
  - reflexivity.
  - apply co_calm_inserts_calm.
  - reflexivity.
  - destruct (Hfail eq_refl) as (Hr & Hout & Hstatus).
    split_and!; [by rewrite Hr | exact Hout | exact Hstatus | reflexivity].
Defined.

(** The accepted request, end to end. *)
Example create_then_settle :
  let r := CreateOrder (co_calm 1) 3 (inr {| req_Items := [line 1 2] |}) (shop 5 10) in
  fst r = Accepted 8 PENDING
  ∧ ∃ m, outbox (snd r) = [(QueueOrderPlaced, MPlaced m)]
         ∧ let w' := snd (ProcessOrder (calm 2) (Some m) (snd r)) in
           status_of (db w') 8 = Some CONFIRMED ∧ stock_of (db w') 1 = Some 3.
Proof. vm_compute. split; [done|]. eexists. by split. Qed.

(** ** Settlement: further properties of [ProcessOrder] *)

Lemma ProcessOrder_error_rolls_back_witness :
  let e := {| begin_err := false; select_err := λ _, false;
              update_err := λ i, bool_decide (i = 1%nat);
              status_err := false; commit_err := false; email_err := false;
              publish_err := false; now := 1 |} in
  snd (ProcessOrder e (Some (placed [line 1 2; line 2 1])) (shop 5 10)) = shop 5 10.
Proof.
  apply (ProcessOrder_error_rolls_back _ _ _ ErrUpdateStock); [reflexivity | discriminate].
Defined.

(** X2.  Whatever the environment does, one execution of [ProcessOrder]
    commits at most once and publishes at most one event, never without the
    commit before it; the event is published only when nil is returned, on
    the queue that matches the committed status, and carries the ids of the
    message. *)
Theorem ProcessOrder_trace e body w :
  let r := ProcessOrder e body w in
  trace (snd r) = trace w
  ∨ trace (snd r) = trace w ++ [Committed]
  ∨ ∃ msg email,
      body = Some msg ∧ fst r = None
      ∧ users (db w) !! UserID msg = Some email
      ∧ ((trace (snd r) = trace w ++ [Committed; confirmed_event e msg email]
          ∧ status_of (db (snd r)) (OrderID msg)
            = (λ _, CONFIRMED) <$> status_of (db w) (OrderID msg))
         ∨ (∃ reason,
              trace (snd r) = trace w ++ [Committed; failed_event e msg email reason]
              ∧ status_of (db (snd r)) (OrderID msg)
                = (λ _, CANCELLED) <$> status_of (db w) (OrderID msg))).
Proof.
  cbv zeta. destruct body as [msg|]; [|by left]. unfold ProcessOrder.
  destruct (begin_err e); [by left|].
  destruct (settle_items e 0 (Items msg) (db w)) as [tx|tx reason|err] eqn:Hexit;
    [| |by left].
  - assert (exit_store (settle_items e 0 (Items msg) (db w)) = Some tx) as Hframe
      by (by rewrite Hexit).
    apply settle_items_frame in Hframe as (Horders & Husers & _).
    unfold exec_set_status, Commit. destruct (status_err e); [by left|].
    destruct (commit_err e); [by left|].
    unfold query_email. cbn [db]. destruct (email_err e); [right; by left|].
    change (users (set_orders (alter (with_status CONFIRMED) (OrderID msg)) tx))
      with (users tx).
    rewrite Husers. destruct (users (db w) !! UserID msg) as [email|] eqn:Hu;
      [|right; by left].
    unfold Publish. destruct (publish_err e); [right; by left|].
    right; right. exists msg, email. split_and!; [done|done|done|]. left.
    cbn [snd db trace]. split; [by rewrite <- app_assoc|].
    rewrite status_of_set_status, decide_True by done.
    unfold status_of. by rewrite Horders.
  - assert (exit_store (settle_items e 0 (Items msg) (db w)) = Some tx) as Hframe
      by (by rewrite Hexit).
    apply settle_items_frame in Hframe as (Horders & Husers & _).
    unfold failOrder, exec_set_status, Commit. destruct (status_err e); [by left|].
    destruct (commit_err e); [by left|].
    unfold query_email. cbn [db]. destruct (email_err e); [right; by left|].
    change (users (set_orders (alter (with_status CANCELLED) (OrderID msg)) tx))
      with (users tx).
    rewrite Husers. destruct (users (db w) !! UserID msg) as [email|] eqn:Hu;
      [|right; by left].
    unfold Publish. destruct (publish_err e); [right; by left|].
    right; right. exists msg, email. split_and!; [done|done|done|]. right.
    exists reason. cbn [snd db trace]. split; [by rewrite <- app_assoc|].
    rewrite status_of_set_status, decide_True by done.
    unfold status_of. by rewrite Horders.
Qed.

(** The loop changes the stock column only: names and prices stay, and no
    product appears or disappears. *)
Lemma settle_items_columns items : ∀ e i tx tx' pid,
  exit_store (settle_items e i items tx) = Some tx' →
  (λ p, (p_name p, p_price p)) <$> products tx' !! pid
  = (λ p, (p_name p, p_price p)) <$> products tx !! pid.
Proof.
  induction items as [|item rest IH]; intros e i tx tx' pid H; simpl in H.
  - by injection H as <-.
  - unfold select_for_update, exec_decrement in H.
    destruct (select_err e i); [done|].
    destruct (products tx !! ProductID item) as [p|] eqn:Hp;
      [|by simpl in H; injection H as <-].
    destruct (p_stock p <? Quantity item); [by simpl in H; injection H as <-|].
    destruct (update_err e i); [done|]. simpl in H.
    rewrite (IH _ _ _ _ pid H). simpl. rewrite lookup_alter.
    case_decide as Heq; [|done]. subst pid. by rewrite Hp.
Qed.

(** X3.  Whatever the environment does, [ProcessOrder] writes two columns
    only, the stock of products and the status of the one order its message
    names: users, order lines and the order sequence stay as they are, no
    product and no order is created or removed, names, prices, owners and
    totals stay, and every other order keeps its status. *)
Theorem ProcessOrder_frame e body w :
  let w' := snd (ProcessOrder e body w) in
  users (db w') = users (db w)
  ∧ order_items (db w') = order_items (db w)
  ∧ orders_id_seq (db w') = orders_id_seq (db w)
  ∧ (∀ pid, (λ p, (p_name p, p_price p)) <$> products (db w') !! pid
            = (λ p, (p_name p, p_price p)) <$> products (db w) !! pid)
  ∧ (∀ oid, (λ o, (o_user o, o_total o)) <$> orders (db w') !! oid
            = (λ o, (o_user o, o_total o)) <$> orders (db w) !! oid)
  ∧ (∀ oid msg, body = Some msg → oid ≠ OrderID msg →
       orders (db w') !! oid = orders (db w) !! oid).
Proof.
  cbv zeta.
  destruct (ProcessOrder_db e body w) as [-> | (msg & tx & st & -> & Hexit & Hst & ->)];
    [by split_and!|].
  pose proof (λ pid, settle_items_columns _ _ _ _ _ pid Hexit) as Hcols.
  apply settle_items_frame in Hexit as (Horders & Husers & Hitems & Hseq).
  split_and!; try done.
  - intros oid. simpl. rewrite Horders, lookup_alter.
    case_decide; [|done]. subst oid. by destruct (orders (db w) !! OrderID msg).
  - intros oid msg' [= <-] Hne. simpl. rewrite Horders, lookup_alter.
    by rewrite decide_False.
Qed.

Lemma settle_items_no_restock items : ∀ e i tx tx' pid x,
  Forall (λ item, 0 ≤ Quantity item) items →
  exit_store (settle_items e i items tx) = Some tx' →
  stock_of tx pid = Some x →
  ∃ x', stock_of tx' pid = Some x' ∧ x' ≤ x.
Proof.
  induction items as [|item rest IH]; intros e i tx tx' pid x Hq H Hx; simpl in H.
  - injection H as <-. exists x. split; [done|lia].
  - apply Forall_cons in Hq as [Hq0 Hq].
    unfold select_for_update, exec_decrement in H.
    destruct (select_err e i); [done|].
    destruct (products tx !! ProductID item) as [p|] eqn:Hp;
      [|simpl in H; injection H as <-; exists x; split; [done|lia]].
    destruct (p_stock p <? Quantity item);
      [simpl in H; injection H as <-; exists x; split; [done|lia]|].
    destruct (update_err e i); [done|]. simpl in H.
    destruct (decide (ProductID item = pid)) as [Heq|Hne].
    + subst pid. unfold stock_of in Hx. rewrite Hp in Hx. injection Hx as <-.
      destruct (IH e (S i) _ tx' (ProductID item) (p_stock p - Quantity item) Hq H)
        as (x' & Hx' & Hle).
      { unfold stock_of. simpl. rewrite lookup_alter, decide_True by done.
        by rewrite Hp. }
      exists x'. split; [done|lia].
    + apply (IH e (S i) _ tx' pid x Hq H).
      unfold stock_of in *. simpl. by rewrite lookup_alter, decide_False.
Qed.

(** X4.  The worker never restocks: along any sequence of deliveries whose
    line items all have a quantity of zero or more, whatever the environment
    does, the stock of a product ends at or below where it started. *)
Theorem stock_never_increases ds : ∀ w pid x,
  (∀ d msg, d ∈ ds → d_body d = Some msg → Forall (λ item, 0 ≤ Quantity item) (Items msg)) →
  stock_of (db w) pid = Some x →
  ∃ x', stock_of (db (snd (run_worker ds w))) pid = Some x' ∧ x' ≤ x.
Proof.
  induction ds as [|d ds IH]; intros w pid x Hq Hx.
  - exists x. split; [done|lia].
  - rewrite run_worker_cons. cbn [snd].
    change (handle d w) with (ProcessOrder (d_env d) (d_body d) w).
    assert (∃ x1, stock_of (db (snd (ProcessOrder (d_env d) (d_body d) w))) pid = Some x1
                  ∧ x1 ≤ x) as (x1 & Hx1 & Hle1).
    { destruct (ProcessOrder_db (d_env d) (d_body d) w)
        as [-> | (msg & tx & st & Hbody & Hexit & Hst & ->)].
      - exists x. split; [done|lia].
      - apply (settle_items_no_restock _ _ _ _ _ pid x (Hq d msg ltac:(by left) Hbody) Hexit Hx). }
    destruct (IH (snd (ProcessOrder (d_env d) (d_body d) w)) pid x1)
      as (x' & Hx' & Hle); [|done|].
    + intros d' msg' Hin. apply Hq. by right.
    + exists x'. split; [done|lia].
Qed.

Lemma stock_never_increases_witness :
  let d := {| d_env := with_email_err (calm 1); d_body := Some (placed [line 1 2]) |} in
  ∃ x', stock_of (db (snd (run_worker [d; d; d] (shop 5 10)))) 1 = Some x' ∧ x' ≤ 5.
Proof.
  apply (stock_never_increases
           [ {| d_env := with_email_err (calm 1); d_body := Some (placed [line 1 2]) |};
             {| d_env := with_email_err (calm 1); d_body := Some (placed [line 1 2]) |};
             {| d_env := with_email_err (calm 1); d_body := Some (placed [line 1 2]) |} ]
           (shop 5 10) 1 5); [|reflexivity].
  intros d msg Hin Hbody.
  assert (d_body d = Some (placed [line 1 2])) as Hd.
  { repeat (apply elem_of_cons in Hin as [-> | Hin]; [reflexivity|]).
    by apply elem_of_nil in Hin. }
  rewrite Hd in Hbody. injection Hbody as <-. repeat constructor. simpl. lia.
Defined.

(** X5.  A body that [json.Unmarshal] rejects is a poison message for the
    worker: whatever the environment, every delivery of it returns the
    unmarshal error before a transaction is opened, the consume loop rejects
    it with requeue, and after any number of deliveries it still heads the
    queue with the database and the broker untouched. *)
Theorem unparseable_body_requeued_forever e rest w n :
  let d := {| d_env := e; d_body := None |} in
  ProcessOrder e None w = (Some ErrUnmarshal, w)
  ∧ serve handle n (d :: rest) w = (replicate n (d, NackRequeue), d :: rest, w).
Proof.
  cbv zeta. split; [done|].
  induction n as [|n IH]; [done|].
  cbn [serve]. unfold handle at 1. cbn [d_env d_body ProcessOrder dispose].
  by rewrite IH.
Qed.

(** X6.  A message without line items is confirmed: with no statement
    erring up to the commit, the order named by the message is set to
    CONFIRMED and committed with every stock as it was. *)
Theorem empty_order_confirmed e msg w :
  Items msg = [] →
  begin_err e = false → status_err e = false → commit_err e = false →
  let w' := snd (ProcessOrder e (Some msg) w) in
  db w' = set_orders (alter (with_status CONFIRMED) (OrderID msg)) (db w)
  ∧ products (db w') = products (db w)
  ∧ status_of (db w') (OrderID msg) = (λ _, CONFIRMED) <$> status_of (db w) (OrderID msg)
  ∧ Committed ∈ trace w'.
Proof.
  intros Hitems Hb Hst Hc. cbv zeta.
  unfold ProcessOrder. rewrite Hb, Hitems. cbn [settle_items].
  unfold exec_set_status, Commit. rewrite Hst, Hc.
  assert (∀ w', db w' = set_orders (alter (with_status CONFIRMED) (OrderID msg)) (db w) →
                (∃ l, trace w' = trace w ++ Committed :: l) →
                db w' = set_orders (alter (with_status CONFIRMED) (OrderID msg)) (db w)
                ∧ products (db w') = products (db w)
                ∧ status_of (db w') (OrderID msg)
                  = (λ _, CONFIRMED) <$> status_of (db w) (OrderID msg)
                ∧ Committed ∈ trace w') as Hgoal.
  { intros w' Hdb [l Htr]. split_and!; [done|by rewrite Hdb| |].
    - rewrite Hdb, status_of_set_status. by rewrite decide_True.
    - rewrite Htr, elem_of_app. right. by left. }
  destruct (query_email _ _ _) as [email|]; cbn [snd].
  - unfold Publish. destruct (publish_err e); cbn [snd]; apply Hgoal; try done.
    + by exists [].
    + cbn [trace]. rewrite <- app_assoc. by eexists.
  - apply Hgoal; [done|]. by exists [].
Qed.

Lemma empty_order_confirmed_witness :
  let w' := snd (ProcessOrder (calm 1) (Some (placed [])) (shop 5 10)) in
  db w' = set_orders (alter (with_status CONFIRMED) 7) (db (shop 5 10))
  ∧ products (db w') = products (db (shop 5 10))
  ∧ status_of (db w') 7 = (λ _, CONFIRMED) <$> status_of (db (shop 5 10)) 7
  ∧ Committed ∈ trace w'.
Proof. apply (empty_order_confirmed (calm 1) (placed []) (shop 5 10)); reflexivity. Defined.

(** X7.  The order named by the message need not exist.  The status update
    then changes no row, which the code does not look at: on the success
    path the stock is decremented and committed all the same, no order is
    created, and the confirmed event for the missing order is published. *)
Theorem missing_order_still_settled e msg w email :
  orders (db w) !! OrderID msg = None →
  begin_err e = false → loop_calm e 0 (length (Items msg)) →
  status_err e = false → commit_err e = false →
  email_err e = false → publish_err e = false →
  all_satisfied (db w) (Items msg) = true →
  users (db w) !! UserID msg = Some email →
  let w' := snd (ProcessOrder e (Some msg) w) in
  fst (ProcessOrder e (Some msg) w) = None
  ∧ orders (db w') = orders (db w)
  ∧ (∀ pid, stock_of (db w') pid
            = (λ x, x - demand pid (Items msg)) <$> stock_of (db w) pid)
  ∧ trace w' = trace w ++ [Committed; confirmed_event e msg email].
Proof.
  intros Hnone Hb Hloop Hst Hc He Hp Hsat Hu. cbv zeta.
  rewrite ProcessOrder_commits by done. cbv zeta.
  unfold query_email, Publish. rewrite He, Hp. cbn [db].
  change (users (confirmed_store msg (db w))) with (users (db w)).
  rewrite Hu. cbn [fst snd db trace].
  split_and!; [done| | |by rewrite <- app_assoc].
  - unfold confirmed_store. simpl. apply map_eq. intros oid.
    rewrite lookup_alter. case_decide; [|done]. subst oid. by rewrite Hnone.
  - intros pid. unfold confirmed_store, stock_of at 1. simpl. apply stock_of_settled.
Qed.

Lemma missing_order_still_settled_witness :
  let msg := {| OrderID := 99; UserID := 3; Items := [line 1 2];
                TotalAmount := 0%float; Timestamp := 0 |} in
  let w' := snd (ProcessOrder (calm 1) (Some msg) (shop 5 10)) in
  fst (ProcessOrder (calm 1) (Some msg) (shop 5 10)) = None
  ∧ orders (db w') = orders (db (shop 5 10))
  ∧ stock_of (db w') 1 = (λ x, x - demand 1 (Items msg)) <$> stock_of (db (shop 5 10)) 1
  ∧ trace w' = trace (shop 5 10)
               ++ [Committed; confirmed_event (calm 1) msg "buyer@example.org"].
Proof.
  destruct (missing_order_still_settled (calm 1)
              {| OrderID := 99; UserID := 3; Items := [line 1 2];
                 TotalAmount := 0%float; Timestamp := 0 |}
              (shop 5 10) "buyer@example.org") as (H1 & H2 & H3 & H4);
    try reflexivity; [apply calm_loop_calm|].
  split_and!; [exact H1 | exact H2 | exact (H3 1) | exact H4].
Defined.

(** X8.  The stock check is the only check made on a quantity.  A line item
    with a negative quantity passes it on any product whose stock is not
    negative, and the decrement then raises the stock by that amount. *)
Theorem negative_quantity_raises_stock e msg w item p :
  Items msg = [item] →
  products (db w) !! ProductID item = Some p →
  Quantity item < 0 → 0 ≤ p_stock p →
  begin_err e = false → select_err e 0 = false → update_err e 0 = false →
  status_err e = false → commit_err e = false →
  let w' := snd (ProcessOrder e (Some msg) w) in
  stock_of (db w') (ProductID item) = Some (p_stock p - Quantity item)
  ∧ p_stock p < p_stock p - Quantity item
  ∧ status_of (db w') (OrderID msg) = (λ _, CONFIRMED) <$> status_of (db w) (OrderID msg).
Proof.
  intros Hitems Hp Hq Hx Hb Hsel Hupd Hst Hc. cbv zeta.
  assert (all_satisfied (db w) (Items msg) = true) as Hsat.
  { rewrite Hitems. unfold all_satisfied. simpl. unfold in_stock. rewrite Hp. simpl.
    rewrite andb_true_r. apply Z.leb_le. lia. }
  assert (loop_calm e 0 (length (Items msg))) as Hloop.
  { rewrite Hitems. intros j Hj. simpl in Hj. by replace j with 0%nat by lia. }
  rewrite ProcessOrder_commits by done. cbv zeta.
  assert (∀ w', db w' = confirmed_store msg (db w) →
            stock_of (db w') (ProductID item) = Some (p_stock p - Quantity item)
            ∧ p_stock p < p_stock p - Quantity item
            ∧ status_of (db w') (OrderID msg)
              = (λ _, CONFIRMED) <$> status_of (db w) (OrderID msg)) as Hgoal.
  { intros w' ->. split_and!; [|lia|].
    - unfold confirmed_store, stock_of at 1. simpl.
      change (foldl apply_item (products (db w)) (Items msg) !! ProductID item)
        with (products (settled (Items msg) (db w)) !! ProductID item).
      rewrite lookup_settled, Hp, Hitems. simpl. rewrite decide_True by done.
      f_equal. lia.
    - unfold confirmed_store. rewrite status_of_set_status. by rewrite decide_True. }
  destruct (query_email _ _ _); cbn [snd]; [|by apply Hgoal].
  unfold Publish. by destruct (publish_err e); apply Hgoal.
Qed.

Lemma negative_quantity_raises_stock_witness :
  let msg := placed [line 1 (-4)] in
  let w' := snd (ProcessOrder (calm 1) (Some msg) (shop 5 10)) in
  stock_of (db w') 1 = Some (5 - -4)
  ∧ 5 < 5 - -4
  ∧ status_of (db w') 7 = (λ _, CONFIRMED) <$> status_of (db (shop 5 10)) 7.
Proof.
  apply (negative_quantity_raises_stock (calm 1) (placed [line 1 (-4)]) (shop 5 10)
           (line 1 (-4)) (laptop 5)); try reflexivity. simpl. lia.
Defined.

(** X9.  [failOrder] gives up silently when it cannot read the user's
    email after its commit: on the failure path, when the lookup meets an
    error or finds no such user, the order is committed as CANCELLED with
    the earlier decrements, no failed event is published and the broker is
    not called, [ProcessOrder] returns nil and the consume loop acknowledges
    the message, so that nothing is left to announce the cancellation. *)
Theorem cancelled_without_event e msg w pre bad post queue :
  Items msg = pre ++ bad :: post →
  all_satisfied (db w) pre = true →
  in_stock (db w) pre bad = false →
  begin_err e = false → loop_calm e 0 (length pre) → select_err e (length pre) = false →
  status_err e = false → commit_err e = false →
  email_err e = true ∨ users (db w) !! UserID msg = None →
  let d := {| d_env := e; d_body := Some msg |} in
  let w' := {| db := cancelled_store msg pre (db w); trace := trace w ++ [Committed] |} in
  ProcessOrder e (Some msg) w = (None, w')
  ∧ outbox w' = outbox w
  ∧ serve handle 1 (d :: queue) w = ([(d, Ack)], queue, w').
Proof.
  intros Hitems Hsat Hbad Hb Hloop Hsel Hst Hc Hquiet. cbv zeta.
  assert (ProcessOrder e (Some msg) w
          = (None, {| db := cancelled_store msg pre (db w);
                      trace := trace w ++ [Committed] |})) as Hrun.
  { rewrite (ProcessOrder_cancels e msg w pre bad post) by done. f_equal.
    unfold failOrder, exec_set_status, Commit, query_email. rewrite Hst, Hc. cbn [db].
    fold (cancelled_store msg pre (db w)).
    change (users (cancelled_store msg pre (db w))) with (users (db w)).
    destruct (email_err e); [done|].
    destruct (users (db w) !! UserID msg) as [email|]; [|done].
    by destruct Hquiet. }
  split_and!; [done | apply outbox_committed |].
  unfold serve, handle. cbn [d_env d_body]. by rewrite Hrun.
Qed.

Lemma cancelled_without_event_witness :
  let e := with_email_err (calm 1) in
  let msg := placed [line 1 2; line 2 100] in
  let w := shop 5 10 in
  let d := {| d_env := e; d_body := Some msg |} in
  let w' := {| db := cancelled_store msg [line 1 2] (db w);
               trace := trace w ++ [Committed] |} in
  ProcessOrder e (Some msg) w = (None, w')
  ∧ outbox w' = outbox w
  ∧ serve handle 1 (d :: []) w = ([(d, Ack)], [], w').
Proof.
  apply (cancelled_without_event (with_email_err (calm 1))
           (placed [line 1 2; line 2 100]) (shop 5 10) [line 1 2] (line 2 100) [] []);
    try reflexivity.
  - apply calm_loop_calm.
  - left; reflexivity.
Defined.

(** ** Broker client: batches and the queue *)

Section ConsumeMore.
Context {D E St : Type}.
Variable handler : D → St → option E * St.

(** X10.  The consume loop keeps nothing between deliveries but the
    handler's state: handling one batch and then another gives the answers
    and the state of handling them in one go. *)
Theorem consume_loop_app msgs1 msgs2 : ∀ st,
  consume_loop handler (msgs1 ++ msgs2) st
  = let r1 := consume_loop handler msgs1 st in
    let r2 := consume_loop handler msgs2 (snd r1) in
    (fst r1 ++ fst r2, snd r2).
Proof.
  induction msgs1 as [|msg rest IH]; intros st.
  - simpl. by destruct (consume_loop handler msgs2 st).
  - simpl. destruct (handler msg st) as [err st1]. rewrite IH. cbv zeta.
    destruct (consume_loop handler rest st1) as [ds1 st2]. simpl.
    by destruct (consume_loop handler msgs2 st2).
Qed.

(** X11.  The queue under the consume loop.  After any number of
    deliveries, the answers given are those of the consume loop run on the
    messages as they were delivered, redeliveries included, and the state is
    the one that loop leaves; a message is acknowledged only where the
    handler returned nil for it in the state the earlier deliveries left;
    and no message is lost: the queue as it was is the acknowledged
    messages, in their order, followed by the queue that is left. *)
Theorem serve_keeps_unacked n : ∀ queue st,
  let r := serve handler n queue st in
  let log := fst (fst r) in
  Consume handler false false (fst <$> log) st = (None, (snd <$> log, snd r))
  ∧ (∀ i msg, log !! i = Some (msg, Ack) →
       fst (handler msg (snd (consume_loop handler (take i (fst <$> log)) st))) = None)
  ∧ (∀ i msg, log !! i = Some (msg, NackRequeue) →
       fst (handler msg (snd (consume_loop handler (take i (fst <$> log)) st))) ≠ None)
  ∧ queue = acked log ++ snd (fst r)
  ∧ (length log ≤ n)%nat.
Proof.
  intros queue st. cbv zeta.
  assert (∀ n queue st,
            consume_loop handler (fst <$> fst (fst (serve handler n queue st))) st
            = (snd <$> fst (fst (serve handler n queue st)), snd (serve handler n queue st)))
    as Hloop.
  { clear. induction n as [|n IH]; intros queue st; [done|].
    destruct queue as [|msg rest]; [done|].
    simpl. destruct (handler msg st) as [err st1] eqn:Hh.
    set (queue1 := match dispose err with Ack => rest | NackRequeue => msg :: rest end).
    specialize (IH queue1 st1).
    destruct (serve handler n queue1 st1) as [[log left] st2].
    cbn [fst snd fmap list_fmap] in *. cbn [consume_loop]. by rewrite Hh, IH. }
  assert (∀ i msg d, fst (fst (serve handler n queue st)) !! i = Some (msg, d) →
            d = dispose (fst (handler msg
                  (snd (consume_loop handler
                          (take i (fst <$> fst (fst (serve handler n queue st)))) st)))))
    as Hanswer.
  { intros i msg d Hi.
    pose proof (consume_loop_lookup handler
                  (fst <$> fst (fst (serve handler n queue st))) st i msg) as Hl.
    rewrite Hloop in Hl. cbn [fst] in Hl.
    rewrite !list_lookup_fmap, Hi in Hl. simpl in Hl.
    specialize (Hl eq_refl). by injection Hl. }
  split_and!.
  - unfold Consume. by rewrite Hloop.
  - intros i msg Hi. apply Hanswer in Hi.
    by destruct (fst (handler msg _)).
  - intros i msg Hi. apply Hanswer in Hi.
    by destruct (fst (handler msg _)).
  - clear. revert queue st. induction n as [|n IH]; intros queue st; [done|].
    destruct queue as [|msg rest]; [done|].
    simpl. destruct (handler msg st) as [[err|] st1]; simpl.
    + specialize (IH (msg :: rest) st1).
      by destruct (serve handler n (msg :: rest) st1) as [[log left] st2].
    + specialize (IH rest st1).
      destruct (serve handler n rest st1) as [[log left] st2]. simpl in *.
      by rewrite <- IH.
  - clear. revert queue st. induction n as [|n IH]; intros queue st; [simpl; lia|].
    destruct queue as [|msg rest]; [simpl; lia|].
    simpl. destruct (handler msg st) as [err st1].
    set (queue1 := match dispose err with Ack => rest | NackRequeue => msg :: rest end).
    specialize (IH queue1 st1).
    destruct (serve handler n queue1 st1) as [[log left] st2]. simpl in *. lia.
Qed.
End ConsumeMore.

(** ** Connecting *)

Lemma attempts_app t1 t2 : attempts (t1 ++ t2) = (attempts t1 + attempts t2)%nat.
Proof.
  induction t1 as [|ef t1 IH]; [done|]. simpl. rewrite IH. by destruct ef.
Qed.

Lemma slept_app t1 t2 : slept (t1 ++ t2) = slept t1 + slept t2.
Proof.
  induction t1 as [|ef t1 IH]; [done|]. simpl. rewrite IH. destruct ef; lia.
Qed.

Lemma rounds_shift i n : ∀ a,
  flat_map (λ j, [Attempt (S i + j); Slept 3]) (seq a n)
  = flat_map (λ j, [Attempt (i + j); Slept 3]) (seq (S a) n).
Proof.
  induction n as [|n IH]; intros a; simpl; [done|]. rewrite IH.
  by replace (i + S a)%nat with (S (i + a)) by lia.
Qed.

(** The loop stops at the first iteration that succeeds, having slept three
    seconds after each one that did not; it gives up after [remaining]. *)
Lemma retry_spec attempt remaining : ∀ i,
  let r := retry attempt i remaining in
  if fst r then
    ∃ k, (k < remaining)%nat ∧ attempt (i + k)%nat = true
         ∧ (∀ j, (j < k)%nat → attempt (i + j)%nat = false)
         ∧ snd r = flat_map (λ j, [Attempt (i + j); Slept 3]) (seq 0 k) ++ [Attempt (i + k)]
  else
    (∀ j, (j < remaining)%nat → attempt (i + j)%nat = false)
    ∧ snd r = flat_map (λ j, [Attempt (i + j); Slept 3]) (seq 0 remaining).
Proof.
  induction remaining as [|r IH]; intros i; cbv zeta.
  - simpl. split; [lia|done].
  - simpl. destruct (attempt i) eqn:Hi.
    + simpl. exists 0%nat. rewrite Nat.add_0_r. split_and!; [lia|done|lia|done].
    + specialize (IH (S i)). cbv zeta in IH.
      destruct (retry attempt (S i) r) as [ok t]. simpl in *.
      pose proof (λ n, rounds_shift i n 0%nat) as Hshift.
      destruct ok.
      * destruct IH as (k & Hk & Hok & Hbefore & ->).
        exists (S k). split_and!; [lia| | |].
        -- by replace (i + S k)%nat with (S i + k)%nat by lia.
        -- intros [|j] Hj; [by rewrite Nat.add_0_r|].
           replace (i + S j)%nat with (S i + j)%nat by lia. apply Hbefore. lia.
        -- rewrite Hshift. simpl. rewrite Nat.add_0_r.
           by replace (i + S k)%nat with (S i + k)%nat by lia.
      * destruct IH as (Hall & ->). split.
        -- intros [|j] Hj; [by rewrite Nat.add_0_r|].
           replace (i + S j)%nat with (S i + j)%nat by lia. apply Hall. lia.
        -- rewrite Hshift. simpl. by rewrite Nat.add_0_r.
Qed.

Lemma attempts_rounds i k :
  attempts (flat_map (λ j, [Attempt (i + j); Slept 3]) (seq 0 k)) = k
  ∧ slept (flat_map (λ j, [Attempt (i + j); Slept 3]) (seq 0 k)) = 3 * Z.of_nat k
  ∧ declared (flat_map (λ j, [Attempt (i + j); Slept 3]) (seq 0 k)) = []
  ∧ Forall (λ ef, (∃ j, ef = Attempt j) ∨ ef = Slept 3)
      (flat_map (λ j, [Attempt (i + j); Slept 3]) (seq 0 k)).
Proof.
  generalize 0%nat at 1 2 3 4. induction k as [|k IH]; intros a.
  - simpl. split_and!; [done|done|done|constructor].
  - simpl. destruct (IH (S a)) as (H1 & H2 & H3 & H4). split_and!.
    + by rewrite H1.
    + rewrite H2. lia.
    + done.
    + constructor; [left; by eexists|]. constructor; [by right|done].
Qed.

Lemma retry_only attempt remaining : ∀ i,
  Forall (λ ef, (∃ j, ef = Attempt j) ∨ ef = Slept 3) (snd (retry attempt i remaining)).
Proof.
  induction remaining as [|r IH]; intros i; simpl; [constructor|].
  destruct (attempt i).
  - repeat constructor. by eexists.
  - specialize (IH (S i)). destruct (retry attempt (S i) r) as [ok t]. simpl in *.
    constructor; [left; by eexists|]. constructor; [by right|done].
Qed.

Lemma only_dials_declared t :
  Forall (λ ef, (∃ j, ef = Attempt j) ∨ ef = Slept 3) t →
  declared t = []
  ∧ (OpenedChannel ∉ t) ∧ (ClosedChannel ∉ t) ∧ (ClosedConn ∉ t).
Proof.
  induction 1 as [|ef t Hef _ (IH1 & IH2 & IH3 & IH4)].
  - split_and!; [done|apply not_elem_of_nil..].
  - destruct Hef as [[j ->] | ->]; (split_and!; [done|rewrite not_elem_of_cons; by split..]).
Qed.

Lemma declared_app t1 t2 : declared (t1 ++ t2) = declared t1 ++ declared t2.
Proof. apply omap_app. Qed.

(** How [rabbitmq.Connect] ends, by what the environment answers. *)
Lemma Connect_cases e :
  let r := retry (dial_ok e) 0 10 in
  (fst r = false ∧ Connect e = (inl ErrDial, snd r))
  ∨ (fst r = true ∧ channel_err e = true
     ∧ Connect e = (inl ErrOpenChannel, snd r ++ [ClosedConn]))
  ∨ (fst r = true ∧ channel_err e = false
     ∧ ∃ queue pre post,
         [QueueOrderPlaced; QueueOrderConfirmed; QueueOrderFailed] = pre ++ queue :: post
         ∧ declare_err e queue = true
         ∧ Forall (λ q, declare_err e q = false) pre
         ∧ Connect e
           = (inl (ErrDeclareQueue queue),
              snd r ++ OpenedChannel :: ((λ q, DeclaredQueue q true) <$> pre)
                    ++ [ClosedChannel; ClosedConn]))
  ∨ (fst r = true ∧ channel_err e = false
     ∧ Forall (λ q, declare_err e q = false)
         [QueueOrderPlaced; QueueOrderConfirmed; QueueOrderFailed]
     ∧ Connect e
       = (inr {| conn := Some false; channel := Some false |},
          snd r ++ OpenedChannel
                :: ((λ q, DeclaredQueue q true)
                      <$> [QueueOrderPlaced; QueueOrderConfirmed; QueueOrderFailed]))).
Proof.
  cbv zeta. unfold Connect. destruct (retry (dial_ok e) 0 10) as [[|] t1]; [|by left].
  right. destruct (channel_err e); [by left|]. right.
  unfold declareQueues, declare_each.
  destruct (declare_err e QueueOrderPlaced) eqn:H1.
  { left. split_and!; [done|done|]. exists QueueOrderPlaced, [], [QueueOrderConfirmed; QueueOrderFailed]. by split_and!. }
  destruct (declare_err e QueueOrderConfirmed) eqn:H2.
  { left. split_and!; [done|done|].
    exists QueueOrderConfirmed, [QueueOrderPlaced], [QueueOrderFailed].
    split_and!; [done|done|by repeat constructor|done]. }
  destruct (declare_err e QueueOrderFailed) eqn:H3.
  { left. split_and!; [done|done|].
    exists QueueOrderFailed, [QueueOrderPlaced; QueueOrderConfirmed], [].
    split_and!; [done|done|by repeat constructor|done]. }
  right. split_and!; [done|done|by repeat constructor|done].
Qed.

(** X12.  [rabbitmq.Connect] dials at most ten times and stops at the first
    dial that succeeds, sleeping three seconds after each one that fails,
    the last included: it gives up with the dial error exactly when all ten
    fail, after thirty seconds of sleep; when the dial of iteration k is the
    first to succeed, it has dialled k+1 times and slept 3k seconds. *)
Theorem Connect_dials e :
  (fst (Connect e) = inl ErrDial ↔ ∀ i, (i < 10)%nat → dial_ok e i = false)
  ∧ (fst (Connect e) = inl ErrDial →
     attempts (snd (Connect e)) = 10%nat ∧ slept (snd (Connect e)) = 30)
  ∧ (∀ k, (k < 10)%nat → dial_ok e k = true →
          (∀ j, (j < k)%nat → dial_ok e j = false) →
          attempts (snd (Connect e)) = S k ∧ slept (snd (Connect e)) = 3 * Z.of_nat k).
Proof.
  pose proof (retry_spec (dial_ok e) 10 0) as Hspec. cbv zeta in Hspec.
  assert (∃ tail, snd (Connect e) = snd (retry (dial_ok e) 0 10) ++ tail
                  ∧ attempts tail = 0%nat ∧ slept tail = 0
                  ∧ (fst (Connect e) = inl ErrDial ↔ fst (retry (dial_ok e) 0 10) = false))
    as (tail & Htrace & Hatt & Hslept & Hdial).
  { destruct (Connect_cases e)
      as [[Hr ->] | [(Hr & _ & ->) | [(Hr & _ & q & pre & post & _ & _ & _ & ->)
                                     | (Hr & _ & _ & ->)]]]; cbn [fst snd].
    - exists []. rewrite app_nil_r. by split_and!.
    - exists [ClosedConn]. rewrite Hr. by split_and!.
    - eexists. rewrite Hr. split_and!; [done| | |done].
      + simpl. rewrite attempts_app. simpl. rewrite Nat.add_0_r.
        clear. induction pre as [|q pre IH]; [done|]. by simpl.
      + simpl. rewrite slept_app. simpl. rewrite Z.add_0_r.
        clear. induction pre as [|q pre IH]; [done|]. by simpl.
    - eexists. rewrite Hr. by split_and!. }
  rewrite Htrace, attempts_app, slept_app, Hatt, Hslept, Nat.add_0_r, Z.add_0_r.
  destruct (retry (dial_ok e) 0 10) as [[|] t]; cbn [fst snd] in *.
  - destruct Hspec as (k0 & Hk0 & Hok & Hbefore & ->).
    cbn [Nat.add] in Hok, Hbefore.
    destruct (attempts_rounds 0 k0) as (Ha & Hs & _).
    split_and!.
    + rewrite Hdial. split; [done|]. intros Hall. by rewrite (Hall k0 Hk0) in Hok.
    + rewrite Hdial. done.
    + intros k Hk Hyes Hno.
      assert (k = k0) as ->.
      { destruct (Nat.lt_trichotomy k k0) as [Hlt | [-> | Hgt]]; [|done|].
        - by rewrite (Hbefore k Hlt) in Hyes.
        - by rewrite (Hno k0 Hgt) in Hok. }
      rewrite attempts_app, slept_app, Ha, Hs. simpl. lia.
  - destruct Hspec as (Hall & ->). cbn [Nat.add] in Hall.
    destruct (attempts_rounds 0 10) as (Ha & Hs & _).
    split_and!.
    + rewrite Hdial. split; [done|]. by intros _.
    + intros _. rewrite Ha, Hs. done.
    + intros k Hk Hyes _. by rewrite (Hall k Hk) in Hyes.
Qed.

Lemma Connect_dials_witness :
  let e := {| dial_ok := λ i, bool_decide (i = 2%nat); channel_err := false;
              declare_err := λ _, false |} in
  attempts (snd (Connect e)) = 3%nat ∧ slept (snd (Connect e)) = 3 * Z.of_nat 2.
Proof.
  apply (proj2 (proj2 (Connect_dials
                         {| dial_ok := λ i, bool_decide (i = 2%nat); channel_err := false;
                            declare_err := λ _, false |})) 2%nat); [lia|reflexivity|].
  intros [|[|j]] Hj; [reflexivity|reflexivity|lia].
Defined.

(** X13.  [rabbitmq.Connect] leaves nothing open behind an error and
    declares the three queues, durable, before it succeeds.  When every dial
    failed there is nothing to close; when the channel cannot be opened the
    connection is closed; when a queue cannot be declared the queues before
    it have been declared and both the channel and the connection are closed
    last; when it returns a client the three queues are declared in the
    order placed, confirmed, failed and nothing has been closed. *)
Theorem Connect_releases e :
  let t := snd (Connect e) in
  match fst (Connect e) with
  | inr rmq =>
      IsConnected rmq = true
      ∧ declared t = [(QueueOrderPlaced, true); (QueueOrderConfirmed, true);
                      (QueueOrderFailed, true)]
      ∧ (ClosedChannel ∉ t) ∧ (ClosedConn ∉ t)
  | inl ErrDial => (OpenedChannel ∉ t) ∧ declared t = [] ∧ (ClosedConn ∉ t)
  | inl ErrOpenChannel => (OpenedChannel ∉ t) ∧ declared t = [] ∧ last t = Some ClosedConn
  | inl (ErrDeclareQueue queue) =>
      declare_err e queue = true
      ∧ (∃ post, [(QueueOrderPlaced, true); (QueueOrderConfirmed, true);
                  (QueueOrderFailed, true)] = declared t ++ (queue, true) :: post)
      ∧ ∃ t0, t = t0 ++ [ClosedChannel; ClosedConn]
  end.
Proof.
  cbv zeta.
  destruct (only_dials_declared _ (retry_only (dial_ok e) 10 0)) as (Hd & Ho & Hcc & Hc).
  assert (∀ l, (∀ ef, ef ∈ l → ef ≠ ClosedConn) →
               ClosedConn ∉ snd (retry (dial_ok e) 0 10) ++ l) as Hnc.
  { intros l Hl. rewrite elem_of_app. intros [?|Hin]; [done|]. by apply (Hl _ Hin). }
  assert (∀ l, (∀ ef, ef ∈ l → ef ≠ ClosedChannel) →
               ClosedChannel ∉ snd (retry (dial_ok e) 0 10) ++ l) as Hncc.
  { intros l Hl. rewrite elem_of_app. intros [?|Hin]; [done|]. by apply (Hl _ Hin). }
  unfold Connect. destruct (retry (dial_ok e) 0 10) as [[|] t1]; cbn [fst snd] in *;
    [|by split_and!].
  destruct (channel_err e); cbn [fst snd].
  { split_and!.
    - rewrite elem_of_app. intros [?|Hin]; [done|].
      by apply list_elem_of_singleton in Hin.
    - by rewrite declared_app, Hd.
    - by rewrite last_snoc. }
  unfold declareQueues, declare_each.
  destruct (declare_err e QueueOrderPlaced) eqn:H1; cbn [fst snd].
  { split_and!; [done| |].
    - eexists. rewrite declared_app, Hd. simpl. done.
    - exists (t1 ++ [OpenedChannel]). by rewrite <- app_assoc. }
  destruct (declare_err e QueueOrderConfirmed) eqn:H2; cbn [fst snd].
  { split_and!; [done| |].
    - eexists. rewrite declared_app, Hd. simpl. done.
    - exists (t1 ++ [OpenedChannel; DeclaredQueue QueueOrderPlaced true]).
      by rewrite <- app_assoc. }
  destruct (declare_err e QueueOrderFailed) eqn:H3; cbn [fst snd].
  { split_and!; [done| |].
    - exists []. rewrite declared_app, Hd. simpl. done.
    - exists (t1 ++ [OpenedChannel; DeclaredQueue QueueOrderPlaced true;
                     DeclaredQueue QueueOrderConfirmed true]).
      by rewrite <- app_assoc. }
  split_and!; [done| | |].
  - by rewrite declared_app, Hd.
  - apply Hncc. intros ef Hin.
    repeat (apply elem_of_cons in Hin as [-> | Hin]; [done|]).
    by apply elem_of_nil in Hin.
  - apply Hnc. intros ef Hin.
    repeat (apply elem_of_cons in Hin as [-> | Hin]; [done|]).
    by apply elem_of_nil in Hin.
Qed.

(** X14.  [database.Connect] and [cache.Connect] use the same loop: the
    database handle is returned exactly when, at one of the ten iterations,
    both [sql.Open] and the ping succeed, and the pool is then configured
    (25 open, 5 idle, 5 minutes) as the last step; the cache client is
    returned exactly when one of ten pings succeeds; either gives up after
    ten iterations and thirty seconds of sleep. *)
Theorem database_cache_Connect e :
  (fst (database_Connect e) = true
   ↔ ∃ i, (i < 10)%nat ∧ open_ok e i = true ∧ ping_ok e i = true)
  ∧ (fst (database_Connect e) = true →
     last (snd (database_Connect e)) = Some (PoolConfigured 25 5 300))
  ∧ (fst (database_Connect e) = false →
     attempts (snd (database_Connect e)) = 10%nat ∧ slept (snd (database_Connect e)) = 30)
  ∧ (fst (cache_Connect e) = true ↔ ∃ i, (i < 10)%nat ∧ ping_ok e i = true)
  ∧ (fst (cache_Connect e) = false →
     attempts (snd (cache_Connect e)) = 10%nat ∧ slept (snd (cache_Connect e)) = 30).
Proof.
  pose proof (retry_spec (λ i, open_ok e i && ping_ok e i) 10 0) as Hdb.
  pose proof (retry_spec (ping_ok e) 10 0) as Hc. cbv zeta in Hdb, Hc.
  unfold database_Connect, cache_Connect.
  destruct (attempts_rounds 0 10) as (Ha & Hs & _).
  split_and!.
  - destruct (retry (λ i, open_ok e i && ping_ok e i) 0 10) as [[|] t]; cbn [fst snd] in *.
    + destruct Hdb as (k & Hk & Hok & _). apply andb_true_iff in Hok.
      split; [|done]. intros _. by exists k.
    + destruct Hdb as [Hall _]. split; [done|]. intros (i & Hi & Ho & Hp).
      specialize (Hall i Hi). simpl in Hall. by rewrite Ho, Hp in Hall.
  - destruct (retry (λ i, open_ok e i && ping_ok e i) 0 10) as [[|] t]; cbn [fst snd];
      [|done]. intros _. by rewrite last_snoc.
  - destruct (retry (λ i, open_ok e i && ping_ok e i) 0 10) as [[|] t]; cbn [fst snd] in *;
      [done|]. intros _. destruct Hdb as [_ ->]. by rewrite Ha, Hs.
  - destruct (retry (ping_ok e) 0 10) as [[|] t]; cbn [fst snd] in *.
    + destruct Hc as (k & Hk & Hok & _). split; [|done]. intros _. by exists k.
    + destruct Hc as [Hall _]. split; [done|]. intros (i & Hi & Hp).
      specialize (Hall i Hi). simpl in Hall. by rewrite Hp in Hall.
  - destruct (retry (ping_ok e) 0 10) as [[|] t]; cbn [fst snd] in *; [done|].
    intros _. destruct Hc as [_ ->]. by rewrite Ha, Hs.
Qed.

Lemma database_cache_Connect_witness :
  let e := {| open_ok := λ _, true; ping_ok := λ i, bool_decide (i = 4%nat) |} in
  last (snd (database_Connect e)) = Some (PoolConfigured 25 5 300).
Proof.
  apply (proj1 (proj2 (database_cache_Connect
                         {| open_ok := λ _, true;
                            ping_ok := λ i, bool_decide (i = 4%nat) |}))).
  reflexivity.
Defined.

(** ** Notification consumer *)

Lemma append_assoc (a b c : string) : (a +:+ b) +:+ c = a +:+ b +:+ c.
Proof.
  induction a as [|ch a IH]; [done|].
  change (String ch ((a +:+ b) +:+ c) = String ch (a +:+ b +:+ c)). by rewrite IH.
Qed.

Lemma occurs_in_here a post : occurs_in a (a +:+ post).
Proof. by exists ""%string, post. Qed.

Lemma occurs_in_prepend s a x : occurs_in a x → occurs_in a (s +:+ x).
Proof.
  intros (pre & post & ->). exists (s +:+ pre), post. by rewrite append_assoc.
Qed.

Lemma outbox_published s w queueName m :
  outbox {| db := s; trace := trace w ++ [Committed; Published queueName m] |}
  = outbox w ++ [(queueName, m)].
Proof. unfold outbox; simpl. by rewrite omap_app. Qed.

(** The whole success path, as one equation. *)
Lemma ProcessOrder_confirmed_eq e msg w email :
  begin_err e = false → loop_calm e 0 (length (Items msg)) →
  status_err e = false → commit_err e = false →
  email_err e = false → publish_err e = false →
  all_satisfied (db w) (Items msg) = true →
  users (db w) !! UserID msg = Some email →
  ProcessOrder e (Some msg) w
  = (None, {| db := confirmed_store msg (db w);
              trace := trace w ++ [Committed; confirmed_event e msg email] |}).
Proof.
  intros Hb Hloop Hst Hc He Hp Hsat Hu.
  rewrite ProcessOrder_commits by done. cbv zeta.
  unfold query_email, Publish. rewrite He, Hp. cbn [db].
  change (users (confirmed_store msg (db w))) with (users (db w)).
  rewrite Hu. cbn [snd db trace]. by rewrite <- app_assoc.
Qed.

Section ConfirmationFacts.
Variable format_amount : float → string.

(** X16.  A confirmed event may name an order that does not exist: on the
    success path of [ProcessOrder] for a message whose order id has no row,
    the confirmed event is published all the same, and [ProcessConfirmed],
    which reads the order's total first, returns an error for it whatever
    the environment; the consume loop requeues it at each of any number of
    deliveries and no mail is ever sent. *)
Theorem confirmed_event_of_missing_order_poisons e msg w email :
  orders (db w) !! OrderID msg = None →
  begin_err e = false → loop_calm e 0 (length (Items msg)) →
  status_err e = false → commit_err e = false →
  email_err e = false → publish_err e = false →
  all_satisfied (db w) (Items msg) = true →
  users (db w) !! UserID msg = Some email →
  let w' := snd (ProcessOrder e (Some msg) w) in
  ∃ m,
    outbox w' = outbox w ++ [(QueueOrderConfirmed, MConfirmed m)]
    ∧ ∀ me rest sent n,
        let d := {| n_env := me; n_body := Some m |} in
        ProcessConfirmed format_amount me (db w') (Some m) sent = (Some ErrOrderDetails, sent)
        ∧ serve (notify_confirmed format_amount (db w')) n (d :: rest) sent
          = (replicate n (d, NackRequeue), d :: rest, sent).
Proof.
  intros Hnone Hb Hloop Hst Hc He Hp Hsat Hu. cbv zeta.
  rewrite (ProcessOrder_confirmed_eq e msg w email) by done. cbn [snd db].
  eexists. split; [apply outbox_published|].
  intros me rest sent n.
  assert (∀ sent', ProcessConfirmed format_amount me (confirmed_store msg (db w))
                     (Some {| c_OrderID := OrderID msg; c_UserID := UserID msg;
                              c_UserEmail := email; c_Timestamp := now e |}) sent'
                   = (Some ErrOrderDetails, sent')) as Hrun.
  { intros sent'. unfold ProcessConfirmed. cbn [c_OrderID].
    destruct (total_err me); [done|].
    unfold confirmed_store. simpl. rewrite lookup_alter, decide_True by done.
    by rewrite Hnone. }
  split; [apply Hrun|].
  induction n as [|n IH]; [done|].
  cbn [serve]. unfold notify_confirmed at 1. cbn [n_env n_body].
  rewrite Hrun. cbn [dispose]. by rewrite IH.
Qed.

(** X15.  With the SMTP constants as they stand no notification is ever
    mailed.  The address dialled is [smtpHost:smtpPort], whose port is
    neither a number nor the name of a service, so that [smtp.SendMail]
    returns an error before it connects: whatever the environment, the
    store and the body, [ProcessFailed] and [ProcessConfirmed] return an
    error and send nothing, and the consume loop requeues the event at each
    of any number of deliveries, with the queue behind it never served. *)
Theorem no_mail_is_ever_sent :
  smtpHost +:+ ":" +:+ smtpPort = "qweqwe:qweqwe"%string
  ∧ (∀ me to msg sent, SendMail me to msg sent = None)
  ∧ (∀ me body sent,
       fst (ProcessFailed me body sent) ≠ None ∧ snd (ProcessFailed me body sent) = sent)
  ∧ (∀ me s body sent,
       fst (ProcessConfirmed format_amount me s body sent) ≠ None
       ∧ snd (ProcessConfirmed format_amount me s body sent) = sent)
  ∧ (∀ d rest sent n,
       serve notify_failed n (d :: rest) sent = (replicate n (d, NackRequeue), d :: rest, sent))
  ∧ (∀ s d rest sent n,
       serve (notify_confirmed format_amount s) n (d :: rest) sent
       = (replicate n (d, NackRequeue), d :: rest, sent)).
Proof.
  assert (∀ me to msg sent, SendMail me to msg sent = None) as Hsend by done.
  assert (∀ me body sent, ∃ err, ProcessFailed me body sent = (Some err, sent)) as Hfailed.
  { intros me [m|] sent; [|by eexists].
    unfold ProcessFailed, sendFailureEmail. rewrite Hsend. by eexists. }
  assert (∀ me s body sent,
            ∃ err, ProcessConfirmed format_amount me s body sent = (Some err, sent))
    as Hconfirmed.
  { intros me s [m|] sent; [|by eexists]. unfold ProcessConfirmed.
    destruct (total_err me); [by eexists|].
    destruct (orders s !! c_OrderID m) as [o|]; [|by eexists].
    unfold sendConfirmationEmail. rewrite Hsend. by eexists. }
  split_and!; [done|done| | | |].
  - intros me body sent. by destruct (Hfailed me body sent) as [err ->].
  - intros me s body sent. by destruct (Hconfirmed me s body sent) as [err ->].
  - intros d rest sent n. induction n as [|n IH]; [done|].
    cbn [serve]. unfold notify_failed at 1.
    destruct (Hfailed (fn_env d) (fn_body d) sent) as [err ->].
    cbn [dispose]. by rewrite IH.
  - intros s d rest sent n. induction n as [|n IH]; [done|].
    cbn [serve]. unfold notify_confirmed at 1.
    destruct (Hconfirmed (n_env d) s (n_body d) sent) as [err ->].
    cbn [dispose]. by rewrite IH.
Qed.
End ConfirmationFacts.

Lemma confirmed_event_of_missing_order_poisons_witness :
  let msg := {| OrderID := 99; UserID := 3; Items := [line 1 2];
                TotalAmount := 0%float; Timestamp := 0 |} in
  let w' := snd (ProcessOrder (calm 1) (Some msg) (shop 5 10)) in
  ∃ m,
    outbox w' = outbox (shop 5 10) ++ [(QueueOrderConfirmed, MConfirmed m)]
    ∧ ProcessConfirmed (λ _, "0.00"%string)
        {| total_err := false; smtp_err := false; order_date := "" |} (db w') (Some m) []
      = (Some ErrOrderDetails, []).
Proof.
  destruct (confirmed_event_of_missing_order_poisons (λ _, "0.00"%string) (calm 1)
              {| OrderID := 99; UserID := 3; Items := [line 1 2];
                 TotalAmount := 0%float; Timestamp := 0 |}
              (shop 5 10) "buyer@example.org") as (m & Hout & Hpoison);
    try reflexivity; [apply calm_loop_calm|].
  exists m. split; [exact Hout|].
  exact (proj1 (Hpoison {| total_err := false; smtp_err := false; order_date := "" |}
                  [] [] 0%nat)).
Defined.

(** ** Order placement producer: further properties *)

(** The first loop stops at the first product that does not exist. *)
Lemma price_items_unknown pre : ∀ e i s acc bad post,
  (∀ j, (j ≤ length pre)%nat → co_select_err e (i + j)%nat = false) →
  Forall (λ item, is_Some (products s !! ProductID item)) pre →
  products s !! ProductID bad = None →
  price_items e i (pre ++ bad :: post) s acc
  = Rejected (BadRequest ("Product ID " +:+ pretty (ProductID bad) +:+ " not found")).
Proof.
  induction pre as [|item rest IH]; intros e i s acc bad post Hsel Hall Hbad.
  - simpl. specialize (Hsel 0%nat ltac:(simpl; lia)). rewrite Nat.add_0_r in Hsel.
    by rewrite Hsel, Hbad.
  - simpl. specialize (Hsel 0%nat ltac:(simpl; lia)) as Hsel0.
    rewrite Nat.add_0_r in Hsel0. rewrite Hsel0.
    apply Forall_cons in Hall as [[p Hp] Hall]. rewrite Hp.
    apply IH; [|done|done]. intros j Hj. specialize (Hsel (S j) ltac:(simpl; lia)).
    by replace (i + S j)%nat with (S i + j)%nat in Hsel by lia.
Qed.

(** X17.  [CreateOrder] rejects a request that names a product that does
    not exist with a 400 answer that names the first such product of the
    request; nothing is written, not even the order sequence is advanced,
    and nothing is published. *)
Theorem CreateOrder_unknown_product e userID req w pre bad post :
  req_Items req = pre ++ bad :: post →
  Forall (λ item, is_Some (products (db w) !! ProductID item)) pre →
  products (db w) !! ProductID bad = None →
  co_begin_err e = false →
  (∀ j, (j ≤ length pre)%nat → co_select_err e j = false) →
  CreateOrder e userID (inr req) w
  = (BadRequest ("Product ID " +:+ pretty (ProductID bad) +:+ " not found"), w).
Proof.
  intros Hitems Hall Hbad Hb Hsel. unfold CreateOrder. rewrite Hb, Hitems.
  by rewrite (price_items_unknown pre e 0%nat (db w) 0%float bad post).
Qed.

Lemma CreateOrder_unknown_product_witness :
  CreateOrder (co_calm 1) 3 (inr {| req_Items := [line 1 2; line 9 1; line 8 1] |}) (shop 5 10)
  = (BadRequest ("Product ID " +:+ pretty 9 +:+ " not found"), shop 5 10).
Proof.
  apply (CreateOrder_unknown_product (co_calm 1) 3
           {| req_Items := [line 1 2; line 9 1; line 8 1] |} (shop 5 10)
           [line 1 2] (line 9 1) [line 8 1]); try reflexivity.
  repeat constructor. by eexists.
Defined.

(** Up to the commit of [CreateOrder]. *)
Lemma CreateOrder_committed e userID req w total :
  co_begin_err e = false →
  price_items e 0 (req_Items req) (db w) 0 = Priced total →
  co_insert_order_err e = false →
  inserts_calm e 0 (length (req_Items req)) →
  co_commit_err e = false →
  db (snd (CreateOrder e userID (inr req) w)) = placed_store e userID req total (db w).
Proof.
  intros Hb Hprice Hio Hins Hc. unfold CreateOrder. rewrite Hb, Hprice, Hio.
  unfold insert_order. rewrite insert_items_ok by done. unfold Commit, Publish.
  rewrite Hc. by destruct (co_publish_err e).
Qed.

Lemma order_rows_length items : ∀ e i orderID m,
  length (order_rows e i items orderID m) = length items.
Proof.
  induction items as [|item rest IH]; intros e i orderID m; [done|].
  simpl. by rewrite IH.
Qed.

(** ** Reading an order *)

Lemma scan_rows_sub {A : Type} (skip : nat → bool) (rows : list A) : ∀ i x,
  x ∈ scan_rows skip i rows → x ∈ rows.
Proof.
  induction rows as [|row rest IH]; intros i x Hin; [done|]. simpl in Hin.
  destruct (skip i).
  - right. by apply (IH (S i)).
  - apply elem_of_cons in Hin as [-> | Hin]; [by left|]. right. by apply (IH (S i)).
Qed.

Lemma scan_rows_all {A : Type} (skip : nat → bool) (rows : list A) : ∀ i,
  (∀ j, skip j = false) → scan_rows skip i rows = rows.
Proof.
  induction rows as [|row rest IH]; intros i Hskip; [done|]. simpl.
  by rewrite Hskip, IH.
Qed.

(** X19.  [GetOrderByID] shows a user their own orders only.  Whatever the
    environment, a 200 answer carries an order row of the caller, with its
    status and total, and only lines of that order; an order of another
    user gets the same 404 answer as an order that does not exist. *)
Theorem GetOrderByID_own_orders_only e userID orderID s :
  (∀ code v,
     GetOrderByID e userID (Some orderID) s = Success code v →
     ∃ o, orders s !! orderID = Some o ∧ o_user o = userID
          ∧ code = 200 ∧ ov_id v = orderID ∧ ov_user v = userID
          ∧ ov_status v = o_status o ∧ ov_total v = o_total o
          ∧ ∀ r, r ∈ ov_items v → oi_order r = orderID ∧ r ∈ order_items s)
  ∧ (order_query_err e = false →
     (∀ o, orders s !! orderID = Some o → o_user o ≠ userID) →
     GetOrderByID e userID (Some orderID) s = Failure 404 "Order not found").
Proof.
  split.
  - intros code v. unfold GetOrderByID.
    destruct (order_query_err e); [done|].
    destruct (orders s !! orderID) as [o|]; [|done].
    case_decide as Hown; [|done].
    destruct (items_query_err e); [done|]. intros [= <- <-].
    exists o. split_and!; try done. cbn [ov_items]. intros r Hin.
    apply scan_rows_sub in Hin. unfold items_of in Hin.
    by apply list_elem_of_filter in Hin.
  - intros Hq Hother. unfold GetOrderByID. rewrite Hq.
    destruct (orders s !! orderID) as [o|] eqn:Ho; [|done].
    by rewrite decide_False by (by apply Hother).
Qed.

Lemma GetOrderByID_own_orders_only_witness :
  GetOrderByID read_calm 4 (Some 7) (db (shop 5 10)) = Failure 404 "Order not found".
Proof.
  apply (proj2 (GetOrderByID_own_orders_only read_calm 4 7 (db (shop 5 10))));
    [reflexivity|].
  intros o Ho. vm_compute in Ho. injection Ho as <-. simpl. lia.
Defined.

Lemma filter_none (orderID : Z) (rows : list OrderItem) :
  Forall (λ r, oi_order r ≠ orderID) rows → filter (λ r, oi_order r = orderID) rows = [].
Proof.
  induction 1 as [|r rows Hr _ IH]; [done|]. by rewrite filter_cons_False.
Qed.

Lemma filter_every (orderID : Z) (rows : list OrderItem) :
  Forall (λ r, oi_order r = orderID) rows → filter (λ r, oi_order r = orderID) rows = rows.
Proof.
  induction 1 as [|r rows Hr _ IH]; [done|]. rewrite filter_cons_True by done.
  by rewrite IH.
Qed.

(** X20.  What [CreateOrder] commits is what [GetOrderByID] returns.  For a
    request whose products exist, with no statement and not the commit
    erring, and no line left over under the new order id, the owner reads
    back the order with its id, as theirs and PENDING, with one line per line
    item of the request, product and quantity as requested, in some order,
    whether or not the placement event could be published; any other user
    gets 404 for it. *)
Theorem created_order_reads_back e userID req w :
  co_begin_err e = false →
  (∀ j, (j < length (req_Items req))%nat → co_select_err e j = false) →
  Forall (λ item, is_Some (products (db w) !! ProductID item)) (req_Items req) →
  co_insert_order_err e = false →
  inserts_calm e 0 (length (req_Items req)) →
  co_commit_err e = false →
  Forall (λ r, oi_order r ≠ orders_id_seq (db w) + 1) (order_items (db w)) →
  let orderID := orders_id_seq (db w) + 1 in
  let s' := db (snd (CreateOrder e userID (inr req) w)) in
  (∃ v,
     GetOrderByID read_calm userID (Some orderID) s' = Success 200 v
     ∧ ov_id v = orderID ∧ ov_user v = userID ∧ ov_status v = PENDING
     ∧ (λ r, {| ProductID := oi_product r; Quantity := oi_quantity r |}) <$> ov_items v
       ≡ₚ req_Items req
     ∧ Forall (λ r, oi_order r = orderID) (ov_items v))
  ∧ ∀ other, other ≠ userID →
      GetOrderByID read_calm other (Some orderID) s' = Failure 404 "Order not found".
Proof.
  intros Hb Hsel Hall Hio Hins Hc Hfresh. cbv zeta.
  destruct (price_items_ok (req_Items req) e 0%nat (db w) 0%float Hsel Hall)
    as [total Htotal].
  destruct (order_rows_lines (req_Items req) e 0%nat (orders_id_seq (db w) + 1)
              (products (db w))) as [Hlines Hown].
  rewrite (CreateOrder_committed e userID req w total) by done.
  assert (orders (placed_store e userID req total (db w)) !! (orders_id_seq (db w) + 1)
          = Some {| o_user := userID; o_status := PENDING; o_total := total |}) as Horder.
  { unfold placed_store. simpl. by rewrite lookup_insert_eq. }
  split.
  - eexists. split.
    + unfold GetOrderByID. cbn [read_calm order_query_err items_query_err scan_err].
      rewrite Horder. cbn [o_user o_status o_total]. rewrite decide_True by done.
      rewrite scan_rows_all by done. unfold items_of, placed_store. simpl.
      by rewrite filter_app, filter_none, filter_every.
    + cbn [ov_id ov_user ov_status ov_items]. rewrite app_nil_l.
      split_and!; [done|done|done|by rewrite Hlines|done].
  - intros other Hother. unfold GetOrderByID. cbn [read_calm order_query_err].
    rewrite Horder. cbn [o_user]. by rewrite decide_False.
Qed.

Lemma created_order_reads_back_witness :
  let e := co_with_publish_err (co_calm 1) in
  let req := {| req_Items := [line 1 2; line 2 1] |} in
  let s' := db (snd (CreateOrder e 3 (inr req) (shop 5 10))) in
  (∃ v,
     GetOrderByID read_calm 3 (Some 8) s' = Success 200 v
     ∧ ov_id v = 8 ∧ ov_user v = 3 ∧ ov_status v = PENDING
     ∧ (λ r, {| ProductID := oi_product r; Quantity := oi_quantity r |}) <$> ov_items v
       ≡ₚ req_Items req
     ∧ Forall (λ r, oi_order r = 8) (ov_items v))
  ∧ ∀ other, other ≠ 3 →
      GetOrderByID read_calm other (Some 8) s' = Failure 404 "Order not found".
Proof.
  apply (created_order_reads_back (co_with_publish_err (co_calm 1)) 3
           {| req_Items := [line 1 2; line 2 1] |} (shop 5 10)); try reflexivity.
  - repeat constructor; by eexists.
  - apply co_calm_inserts_calm.
  - constructor.
Defined.

(** ** Product catalogue with its cache *)

Lemma append_nonempty (a b : string) : a ≠ ""%string → a +:+ b ≠ ""%string.
Proof. by destruct a. Qed.

Lemma searchKey_both c n :
  c ≠ ""%string → n ≠ ""%string →
  searchKey c n = "products:category:" +:+ c +:+ ":name:" +:+ n.
Proof.
  intros Hc Hn. unfold searchKey.
  apply String.eqb_neq in Hc, Hn. rewrite Hc, Hn.
  by rewrite !append_assoc.
Qed.

Lemma searchKey_category c :
  c ≠ ""%string → searchKey c "" = "products:category:" +:+ c.
Proof.
  intros Hc. unfold searchKey. apply String.eqb_neq in Hc. by rewrite Hc.
Qed.

Lemma redis_get_set e1 e2 key v cache :
  set_err e1 = false → get_err e2 = false → clock e2 < clock e1 + ProductCacheTTL →
  redis_get e2 key (redis_set e1 key v cache) = Some v.
Proof.
  intros Hs Hg Ht. unfold redis_get, redis_set. rewrite Hs, Hg, lookup_insert_eq.
  simpl. by destruct (Z.ltb_spec (clock e2) (clock e1 + ProductCacheTTL)); [|lia].
Qed.

(** X21.  The cache key of [SearchProducts] does not separate its two
    parameters: a search by category c and name n and a search by the
    category "c:name:n" alone have the same key.  So after the first search
    has filled the cache, the second one, within the five minutes, is
    answered with the rows of the first, marked as cached, and the database
    is not asked. *)
Theorem search_cache_key_collision e1 e2 c n cache :
  c ≠ ""%string → n ≠ ""%string →
  redis_get e1 (searchKey c n) cache = None →
  query_err e1 = false → rows_scan_err e1 = false → set_err e1 = false →
  get_err e2 = false → clock e2 < clock e1 + ProductCacheTTL →
  let first := SearchProducts e1 c n cache in
  let rows := answer e1 (fst (searchQuery c n)) (snd (searchQuery c n)) in
  searchKey (c +:+ ":name:" +:+ n) "" = searchKey c n
  ∧ fst first = Success 200 {| cd_data := rows; cd_cached := false |}
  ∧ SearchProducts e2 (c +:+ ":name:" +:+ n) "" (snd first)
    = (Success 200 {| cd_data := rows; cd_cached := true |}, snd first).
Proof.
  intros Hc Hn Hmiss Hq Hscan Hset Hget Hclock. cbv zeta.
  assert (searchKey (c +:+ ":name:" +:+ n) "" = searchKey c n) as Hkey.
  { rewrite searchKey_category by (by apply append_nonempty).
    by rewrite searchKey_both. }
  assert (SearchProducts e1 c n cache
          = (Success 200 {| cd_data := answer e1 (fst (searchQuery c n))
                                         (snd (searchQuery c n));
                            cd_cached := false |},
             redis_set e1 (searchKey c n)
               (JProducts (answer e1 (fst (searchQuery c n)) (snd (searchQuery c n))))
               cache)) as Hfirst.
  { unfold SearchProducts. rewrite Hmiss, Hq, Hscan. by destruct (searchQuery c n). }
  rewrite Hfirst. cbn [fst snd]. split_and!; [done|done|].
  unfold SearchProducts. rewrite Hkey. by rewrite redis_get_set.
Qed.

Lemma search_cache_key_collision_witness :
  let laptops : list (Z * Product) := [(1, laptop 5)] in
  let e1 := {| get_err := false; set_err := false; query_err := false;
               rows_scan_err := false; clock := 100;
               answer := λ _ _, laptops |} in
  let e2 := {| get_err := false; set_err := false; query_err := false;
               rows_scan_err := false; clock := 200;
               answer := λ _ _, [] |} in
  let first := SearchProducts e1 "Electronics" "Laptop" ∅ in
  SearchProducts e2 "Electronics:name:Laptop" "" (snd first)
  = (Success 200 {| cd_data := laptops; cd_cached := true |}, snd first).
Proof.
  apply (proj2 (proj2 (search_cache_key_collision
                         {| get_err := false; set_err := false; query_err := false;
                            rows_scan_err := false; clock := 100;
                            answer := λ _ _, [(1, laptop 5)] |}
                         {| get_err := false; set_err := false; query_err := false;
                            rows_scan_err := false; clock := 200;
                            answer := λ _ _, [] |}
                         "Electronics" "Laptop" ∅ ltac:(discriminate) ltac:(discriminate)
                         eq_refl eq_refl eq_refl eq_refl eq_refl eq_refl))).
Defined.

(** X22.  [GetProductByID] serves what it cached, not what the database
    holds.  Once a request has read a product from the database and cached
    it, every request for the same path parameter within the five minutes
    answers with that copy, marked as cached, whatever the products table
    has become meanwhile (a settlement may have decremented the stock); a
    request at or after the five minutes reads the database again. *)
Theorem cached_product_is_stale e1 e2 e3 idStr id p s s' cache :
  products s !! id = Some p →
  redis_get e1 ("product:" +:+ idStr) cache = None →
  query_err e1 = false → set_err e1 = false →
  get_err e2 = false → clock e2 < clock e1 + ProductCacheTTL →
  get_err e3 = false → clock e1 + ProductCacheTTL ≤ clock e3 → query_err e3 = false →
  let first := GetProductByID e1 idStr (Some id) s cache in
  fst first = Success 200 {| cd_data := (id, p); cd_cached := false |}
  ∧ GetProductByID e2 idStr (Some id) s' (snd first)
    = (Success 200 {| cd_data := (id, p); cd_cached := true |}, snd first)
  ∧ ∀ p', products s' !! id = Some p' →
      fst (GetProductByID e3 idStr (Some id) s' (snd first))
      = Success 200 {| cd_data := (id, p'); cd_cached := false |}.
Proof.
  intros Hp Hmiss Hq Hset Hget Hclock Hget3 Hclock3 Hq3. cbv zeta.
  assert (GetProductByID e1 idStr (Some id) s cache
          = (Success 200 {| cd_data := (id, p); cd_cached := false |},
             redis_set e1 ("product:" +:+ idStr) (JProduct id p) cache)) as Hfirst.
  { unfold GetProductByID. cbv zeta. by rewrite Hmiss, Hq, Hp. }
  rewrite Hfirst. cbn [fst snd]. split_and!; [done| |].
  - unfold GetProductByID. cbv zeta. by rewrite redis_get_set.
  - intros p' Hp'. unfold GetProductByID. cbv zeta.
    unfold redis_get at 1, redis_set at 1. rewrite Hget3, Hset, lookup_insert_eq.
    cbn [ce_expires].
    destruct (Z.ltb_spec (clock e3) (clock e1 + ProductCacheTTL)); [lia|].
    by rewrite Hq3, Hp'.
Qed.

Lemma cached_product_is_stale_witness :
  let at_ t := {| get_err := false; set_err := false; query_err := false;
                  rows_scan_err := false; clock := t; answer := λ _ _, [] |} in
  let first := GetProductByID (at_ 0) "1" (Some 1) (db (shop 5 10)) ∅ in
  let settled_db := db (snd (ProcessOrder (calm 1) (Some (placed [line 1 2])) (shop 5 10))) in
  stock_of settled_db 1 = Some 3
  ∧ GetProductByID (at_ 299) "1" (Some 1) settled_db (snd first)
    = (Success 200 {| cd_data := (1, laptop 5); cd_cached := true |}, snd first)
  ∧ fst (GetProductByID (at_ 300) "1" (Some 1) settled_db (snd first))
    = Success 200 {| cd_data := (1, laptop 3); cd_cached := false |}.
Proof.
  pose (at_ := λ t, {| get_err := false; set_err := false; query_err := false;
                       rows_scan_err := false; clock := t; answer := λ _ _, [] |}).
  destruct (cached_product_is_stale (at_ 0) (at_ 299) (at_ 300) "1" 1 (laptop 5)
              (db (shop 5 10))
              (db (snd (ProcessOrder (calm 1) (Some (placed [line 1 2])) (shop 5 10)))) ∅)
    as (_ & Hstale & Hfresh); try reflexivity; try (simpl; unfold ProductCacheTTL; lia).
  split_and!; [reflexivity | exact Hstale | exact (Hfresh (laptop 3) eq_refl)].
Defined.

(** X23.  [GetProductByID] writes the cache only when it has just read the
    product from the database: whatever the environment, the cache after a
    request is the cache before it, or the answer is the product of the
    database, not marked as cached, stored under the key of the path
    parameter for five minutes.  A 400, 404 or 500 answer is never cached,
    and a cache hit does not extend the entry's life. *)
Theorem GetProductByID_cache_writes e idStr id s cache :
  let r := GetProductByID e idStr id s cache in
  snd r = cache
  ∨ ∃ n p,
      id = Some n ∧ products s !! n = Some p
      ∧ fst r = Success 200 {| cd_data := (n, p); cd_cached := false |}
      ∧ snd r = <["product:" +:+ idStr :=
                   {| ce_value := JProduct n p;
                      ce_expires := clock e + ProductCacheTTL |}]> cache.
Proof.
  cbv zeta. unfold GetProductByID. destruct id as [n|]; [|by left]. cbv zeta.
  assert (∀ r, r = (if query_err e then (Failure 500 "Database error", cache)
                    else match products s !! n with
                         | None => (Failure 404 "Product not found", cache)
                         | Some p =>
                             (Success 200 {| cd_data := (n, p); cd_cached := false |},
                              redis_set e ("product:" +:+ idStr) (JProduct n p) cache)
                         end) →
               snd r = cache
               ∨ ∃ n' p, Some n = Some n' ∧ products s !! n' = Some p
                   ∧ fst r = Success 200 {| cd_data := (n', p); cd_cached := false |}
                   ∧ snd r = <["product:" +:+ idStr :=
                                {| ce_value := JProduct n' p;
                                   ce_expires := clock e + ProductCacheTTL |}]> cache)
    as Hdb.
  { intros r ->. destruct (query_err e); [by left|].
    destruct (products s !! n) as [p|] eqn:Hp; [|by left].
    unfold redis_set. destruct (set_err e); [by left|].
    right. by exists n, p. }
  destruct (redis_get e ("product:" +:+ idStr) cache) as [[pid p|ps]|];
    [by left | by apply Hdb | by apply Hdb].
Qed.

(** ** Authentication service *)

Lemma existsb_email email rows :
  existsb (λ u, String.eqb (u_email u) email) rows = true ↔ email ∈ u_email <$> rows.
Proof.
  induction rows as [|u rows IH].
  - split; [done|]. by intros ?%elem_of_nil.
  - rewrite fmap_cons, elem_of_cons. cbn [existsb].
    rewrite orb_true_iff, IH, String.eqb_eq. split; intros [?|?]; auto.
Qed.

Lemma find_email_new email rows u :
  email ∉ u_email <$> rows → u_email u = email →
  find (λ u, String.eqb (u_email u) email) (rows ++ [u]) = Some u.
Proof.
  intros Hnew Hu. induction rows as [|u0 rows IH].
  - simpl. by rewrite Hu, String.eqb_refl.
  - rewrite fmap_cons, not_elem_of_cons in Hnew. destruct Hnew as [Hne Hnew].
    cbn [app find].
    assert (String.eqb (u_email u0) email = false) as ->
      by (apply String.eqb_neq; intros Heq; by apply Hne).
    by apply IH.
Qed.

Section AuthFacts.
Variable GenerateFromPassword : string → option string.
Variable CompareHashAndPassword : string → string → bool.
Variable SignedString : Claims → option string.

(** How [Register] ends: with nothing written, or with the new user
    appended. *)
Lemma Register_cases e bound a :
  (Register GenerateFromPassword e bound a
   = (fst (Register GenerateFromPassword e bound a), a)
   ∧ (∀ v, fst (Register GenerateFromPassword e bound a) ≠ Success 201 v))
  ∨ ∃ req hashed,
      bound = inr req ∧ GenerateFromPassword (rr_Password req) = Some hashed
      ∧ (rr_Email req ∉ u_email <$> user_rows a)
      ∧ Register GenerateFromPassword e bound a
        = (Success 201
             (view_of {| u_id := users_id_seq a + 1; u_name := rr_Name req;
                         u_email := rr_Email req; u_password := hashed;
                         u_phone := rr_Phone req |}),
           {| user_rows := user_rows a
                           ++ [{| u_id := users_id_seq a + 1; u_name := rr_Name req;
                                  u_email := rr_Email req; u_password := hashed;
                                  u_phone := rr_Phone req |}];
              users_id_seq := users_id_seq a + 1 |}).
Proof.
  unfold Register. destruct bound as [err|req]; [by left|].
  destruct (exists_err e); [by left|].
  destruct (existsb _ _) eqn:Hex; [by left|].
  destruct (GenerateFromPassword (rr_Password req)) as [hashed|] eqn:Hh; [|by left].
  destruct (insert_err e); [by left|].
  right. exists req, hashed. split_and!; [done|done| |done].
  intros Hin. apply existsb_email in Hin. by rewrite Hin in Hex.
Qed.

(** X24.  [Register] keeps emails unique and never touches an existing
    user: whatever the environment, the users after it are the users before
    it, followed by the new user when the answer is 201; when no two users
    shared an email before, none do after; and for an email that is taken
    the answer is 409 with nothing written. *)
Theorem Register_keeps_emails_unique e bound a :
  let r := Register GenerateFromPassword e bound a in
  (snd r = a ∧ (∀ v, fst r ≠ Success 201 v)
   ∨ ∃ req hashed user,
       bound = inr req ∧ GenerateFromPassword (rr_Password req) = Some hashed
       ∧ user = {| u_id := users_id_seq a + 1; u_name := rr_Name req;
                   u_email := rr_Email req; u_password := hashed;
                   u_phone := rr_Phone req |}
       ∧ (rr_Email req ∉ u_email <$> user_rows a)
       ∧ r = (Success 201 (view_of user),
              {| user_rows := user_rows a ++ [user];
                 users_id_seq := users_id_seq a + 1 |}))
  ∧ (NoDup (u_email <$> user_rows a) → NoDup (u_email <$> user_rows (snd r)))
  ∧ (∀ req, bound = inr req → exists_err e = false →
       rr_Email req ∈ u_email <$> user_rows a →
       r = (Failure 409 "Email already registered", a)).
Proof.
  cbv zeta. pose proof (Register_cases e bound a) as Hcases.
  split_and!.
  - destruct Hcases as [[Heq Hno] | (req & hashed & -> & Hh & Hnew & Heq)].
    + left. by rewrite Heq.
    + right.
      by exists req, hashed,
           {| u_id := users_id_seq a + 1; u_name := rr_Name req; u_email := rr_Email req;
              u_password := hashed; u_phone := rr_Phone req |}.
  - intros Hnd. destruct Hcases as [[-> _] | (req & hashed & -> & Hh & Hnew & ->)];
      [done|].
    cbn [snd user_rows]. rewrite fmap_app. apply NoDup_app. split_and!; [done| |].
    + intros email Hin Hin2. simpl in Hin2. apply list_elem_of_singleton in Hin2.
      by subst email.
    + simpl. apply NoDup_singleton.
  - intros req -> Hq Hin. unfold Register. rewrite Hq.
    apply existsb_email in Hin. by rewrite Hin.
Qed.

(** X25.  What [Register] stores, [Login] accepts.  When the comparison of
    bcrypt accepts every password against the hash generated from it, a
    login with the email and password of a registration that was answered
    201 finds that user, passes the comparison and, when the signing
    succeeds, is answered 200 with a token whose claims are the new user's
    id and email, the expiry 24 hours after the first reading of the clock
    and the time of issue the second reading. *)
Theorem Register_then_Login e e' req a v a' :
  (∀ p h, GenerateFromPassword p = Some h → CompareHashAndPassword h p = true) →
  Register GenerateFromPassword e (inr req) a = (Success 201 v, a') →
  select_err_user e' = false →
  let claims := {| cl_UserID := uv_id v; cl_Email := rr_Email req;
                   cl_ExpiresAt := auth_now e' 0 + 24 * 3600;
                   cl_IssuedAt := auth_now e' 1 |} in
  uv_id v = users_id_seq a + 1
  ∧ Login CompareHashAndPassword SignedString e'
      (inr {| lr_Email := rr_Email req; lr_Password := rr_Password req |}) a'
    = match SignedString claims with
      | Some token => Success 200 (token, v)
      | None => Failure 500 "Failed to generate token"
      end.
Proof.
  intros Hbcrypt Hreg Hsel. cbv zeta.
  destruct (Register_cases e (inr req) a)
    as [[Heq Hno] | (req' & hashed & [= <-] & Hh & Hnew & Heq)].
  - rewrite Hreg in Hno. cbn [fst] in Hno. by destruct (Hno v).
  - rewrite Hreg in Heq. injection Heq as -> ->. split; [done|].
    unfold Login, by_email. rewrite Hsel. cbn [lr_Email lr_Password user_rows].
    erewrite find_email_new; [|exact Hnew|reflexivity]. cbn [u_password u_id u_email].
    rewrite (Hbcrypt _ _ Hh). unfold generateToken. cbn [view_of uv_id].
    by destruct (SignedString _).
Qed.

(** X26.  [Login] does not tell an unknown email from a wrong password:
    both get the same 401 answer.  And whatever the environment, a 200
    answer is given only for a stored user with that email whose hash the
    comparison accepts for the password, with a token signed for that user's
    id and email, for an expiry 24 hours after the first reading of the
    clock and a time of issue that is the second reading. *)
Theorem Login_verifies_password e req a :
  (select_err_user e = false →
   (by_email (lr_Email req) a = None
    ∨ ∃ u, by_email (lr_Email req) a = Some u
           ∧ CompareHashAndPassword (u_password u) (lr_Password req) = false) →
   Login CompareHashAndPassword SignedString e (inr req) a
   = Failure 401 "Invalid email or password")
  ∧ (∀ code token v,
       Login CompareHashAndPassword SignedString e (inr req) a = Success code (token, v) →
       ∃ u, u ∈ user_rows a ∧ u_email u = lr_Email req ∧ v = view_of u
            ∧ CompareHashAndPassword (u_password u) (lr_Password req) = true
            ∧ SignedString {| cl_UserID := u_id u; cl_Email := u_email u;
                              cl_ExpiresAt := auth_now e 0 + 24 * 3600;
                              cl_IssuedAt := auth_now e 1 |} = Some token).
Proof.
  split.
  - intros Hsel Hbad. unfold Login. rewrite Hsel.
    destruct Hbad as [-> | (u & -> & ->)]; done.
  - intros code token v. unfold Login, by_email.
    destruct (select_err_user e); [done|].
    destruct (find _ (user_rows a)) as [u|] eqn:Hfind; [|done].
    destruct (CompareHashAndPassword _ _) eqn:Hcmp; [|done].
    unfold generateToken.
    destruct (SignedString _) as [token'|] eqn:Hsign; [|done].
    intros [= <- <- <-]. apply find_some in Hfind as [Hin Heq].
    apply String.eqb_eq in Heq. exists u. split_and!; try done.
    by apply list_elem_of_In.
Qed.
End AuthFacts.

Lemma Register_then_Login_witness :
  let hash := λ p : string, Some ("$2a$" +:+ p) in
  let cmp := λ h p : string, String.eqb h ("$2a$" +:+ p) in
  let sign := λ c : Claims, Some ("jwt:" +:+ pretty (cl_UserID c)) in
  let req := {| rr_Name := "Ana"; rr_Email := "ana@example.org"; rr_Password := "secret1";
                rr_Phone := "0812" |} in
  let a := {| user_rows := []; users_id_seq := 0 |} in
  let r := Register hash (auth_calm 1) (inr req) a in
  Login cmp sign (auth_calm 2)
    (inr {| lr_Email := "ana@example.org"; lr_Password := "secret1" |}) (snd r)
  = Success 200 ("jwt:1"%string,
                 {| uv_id := 1; uv_name := "Ana"; uv_email := "ana@example.org";
                    uv_phone := "0812" |}).
Proof.
  pose (hash := λ p : string, Some ("$2a$" +:+ p)).
  pose (cmp := λ h p : string, String.eqb h ("$2a$" +:+ p)).
  pose (sign := λ c : Claims, Some ("jwt:" +:+ pretty (cl_UserID c))).
  apply (proj2 (Register_then_Login hash cmp sign (auth_calm 1) (auth_calm 2)
                  {| rr_Name := "Ana"; rr_Email := "ana@example.org";
                     rr_Password := "secret1"; rr_Phone := "0812" |}
                  {| user_rows := []; users_id_seq := 0 |}
                  {| uv_id := 1; uv_name := "Ana"; uv_email := "ana@example.org";
                     uv_phone := "0812" |}
                  _
                  ltac:(intros p h [= <-]; apply String.eqb_refl) eq_refl eq_refl)).
Defined.

Lemma updated_id req userID u : u_id (updated req userID u) = u_id u.
Proof. unfold updated. by destruct (u_id u =? userID). Qed.

Lemma by_id_updated req userID rows :
  find (λ u, u_id u =? userID) (updated req userID <$> rows)
  = updated req userID <$> find (λ u, u_id u =? userID) rows.
Proof.
  induction rows as [|u rows IH]; [done|]. rewrite fmap_cons. cbn [find].
  rewrite updated_id. by destruct (u_id u =? userID).
Qed.

Lemma updated_others req userID rows :
  find (λ u, u_id u =? userID) rows = None → updated req userID <$> rows = rows.
Proof.
  induction rows as [|u rows IH]; [done|]. cbn [find]. rewrite fmap_cons.
  destruct (u_id u =? userID) eqn:Hid; [done|]. intros Hnone.
  rewrite (IH Hnone). unfold updated. by rewrite Hid.
Qed.

Lemma updateQuery_none req userID :
  updateQuery req userID = None ↔ up_Name req = ""%string ∧ up_Phone req = ""%string.
Proof.
  unfold updateQuery.
  destruct (String.eqb_spec (up_Name req) "") as [Hn|Hn];
    destruct (String.eqb_spec (up_Phone req) "") as [Hp|Hp]; simpl;
    split; try done; by intros [? ?].
Qed.

(** X27.  The text that [UpdateProfile] builds is a well-formed UPDATE in
    each of its three cases: the placeholders are numbered from 1 in the
    order of the arguments, the trailing comma is cut, and the user id is
    the last argument; with neither field given there is no query. *)
Theorem updateQuery_text req userID :
  (up_Name req ≠ ""%string → up_Phone req ≠ ""%string →
   updateQuery req userID
   = Some ("UPDATE users SET name = $1, phone = $2 WHERE id = $3"%string,
           [AString (up_Name req); AString (up_Phone req); AInt userID]))
  ∧ (up_Name req ≠ ""%string → up_Phone req = ""%string →
     updateQuery req userID
     = Some ("UPDATE users SET name = $1 WHERE id = $2"%string,
             [AString (up_Name req); AInt userID]))
  ∧ (up_Name req = ""%string → up_Phone req ≠ ""%string →
     updateQuery req userID
     = Some ("UPDATE users SET phone = $1 WHERE id = $2"%string,
             [AString (up_Phone req); AInt userID]))
  ∧ (up_Name req = ""%string → up_Phone req = ""%string → updateQuery req userID = None).
Proof.
  unfold updateQuery.
  destruct (String.eqb_spec (up_Name req) "") as [Hn|Hn];
    destruct (String.eqb_spec (up_Phone req) "") as [Hp|Hp];
    split_and!; intros; done.
Qed.

Lemma updateQuery_text_witness :
  updateQuery {| up_Name := ""; up_Phone := "0812" |} 3
  = Some ("UPDATE users SET phone = $1 WHERE id = $2"%string, [AString "0812"; AInt 3]).
Proof.
  apply (proj1 (proj2 (proj2 (updateQuery_text {| up_Name := ""; up_Phone := "0812" |} 3))));
    [reflexivity | discriminate].
Defined.

(** How [UpdateProfile] leaves the users. *)
Lemma UpdateProfile_store e userID bound a :
  snd (UpdateProfile e userID bound a) = a
  ∨ ∃ req, bound = inr req
           ∧ snd (UpdateProfile e userID bound a)
             = {| user_rows := updated req userID <$> user_rows a;
                  users_id_seq := users_id_seq a |}.
Proof.
  unfold UpdateProfile. destruct bound as [err|req]; [by left|].
  destruct (updateQuery req userID); [|by left].
  destruct (exec_err e); [by left|]. right. exists req. split; [done|].
  destruct (fetch_err e); [done|]. by destruct (by_id _ _).
Qed.

(** X28.  [UpdateProfile] can change the name and the phone of the caller
    and nothing else: whatever the environment, there are as many users
    after it as before, each with its id, email and password hash, every
    user but the caller is as it was, and a field that the request leaves
    empty keeps its value, so that a name or a phone cannot be cleared; with
    both fields empty the answer is 400 and nothing is written. *)
Theorem UpdateProfile_frame e userID bound a :
  let a' := snd (UpdateProfile e userID bound a) in
  users_id_seq a' = users_id_seq a
  ∧ length (user_rows a') = length (user_rows a)
  ∧ (∀ i u, user_rows a !! i = Some u →
       ∃ u', user_rows a' !! i = Some u'
             ∧ u_id u' = u_id u ∧ u_email u' = u_email u ∧ u_password u' = u_password u
             ∧ (u_id u ≠ userID → u' = u)
             ∧ (∀ req, bound = inr req → up_Name req = ""%string → u_name u' = u_name u)
             ∧ (∀ req, bound = inr req → up_Phone req = ""%string → u_phone u' = u_phone u))
  ∧ (∀ req, bound = inr req → up_Name req = ""%string → up_Phone req = ""%string →
       UpdateProfile e userID bound a = (Failure 400 "No fields to update", a)).
Proof.
  cbv zeta. split_and!.
  - by destruct (UpdateProfile_store e userID bound a) as [-> | (req & _ & ->)].
  - destruct (UpdateProfile_store e userID bound a) as [-> | (req & _ & ->)]; [done|].
    simpl. by rewrite length_fmap.
  - intros i u Hu.
    destruct (UpdateProfile_store e userID bound a) as [-> | (req & -> & ->)].
    + exists u. by split_and!.
    + exists (updated req userID u). simpl. rewrite list_lookup_fmap, Hu.
      split; [done|].
      unfold updated. destruct (Z.eqb_spec (u_id u) userID) as [Hid|Hid].
      * split_and!; [done|done|done|done| |].
        -- intros req' [= <-] Hn. simpl. by rewrite Hn.
        -- intros req' [= <-] Hp. simpl. by rewrite Hp.
      * by split_and!.
  - intros req -> Hn Hp. unfold UpdateProfile.
    by rewrite (proj2 (updateQuery_none req userID) (conj Hn Hp)).
Qed.

Lemma UpdateProfile_frame_witness :
  let a := {| user_rows := [{| u_id := 1; u_name := "Ana"; u_email := "ana@example.org";
                               u_password := "$2a$x"; u_phone := "0812" |}];
              users_id_seq := 1 |} in
  UpdateProfile (auth_calm 1) 1 (inr {| up_Name := ""; up_Phone := "" |}) a
  = (Failure 400 "No fields to update", a).
Proof.
  apply (proj2 (proj2 (proj2 (UpdateProfile_frame (auth_calm 1) 1
                                (inr {| up_Name := ""; up_Phone := "" |})
                                {| user_rows := [{| u_id := 1; u_name := "Ana";
                                                    u_email := "ana@example.org";
                                                    u_password := "$2a$x";
                                                    u_phone := "0812" |}];
                                   users_id_seq := 1 |})))
           {| up_Name := ""; up_Phone := "" |}); reflexivity.
Defined.

(** X29.  [UpdateProfile] for a user that does not exist is answered 500,
    not 404: the UPDATE changes no row, which the code does not look at, and
    the read that follows finds nothing; the users stay as they were.  For a
    user that exists, with no statement erring, the answer is 200 with the
    row as updated.  [GetProfile] answers 404 for the missing user. *)
Theorem UpdateProfile_result e userID req a :
  up_Name req ≠ ""%string ∨ up_Phone req ≠ ""%string →
  exec_err e = false → fetch_err e = false →
  fst (UpdateProfile e userID (inr req) a)
  = match by_id userID a with
    | Some u => Success 200 (view_of (updated req userID u))
    | None => Failure 500 "Failed to fetch updated profile"
    end
  ∧ (by_id userID a = None →
     snd (UpdateProfile e userID (inr req) a) = a
     ∧ (select_err_user e = false → GetProfile e userID a = Failure 404 "User not found")).
Proof.
  intros Hfield Hexec Hfetch.
  assert (∃ q, updateQuery req userID = Some q) as [q Hq].
  { destruct (updateQuery req userID) as [q|] eqn:Hq; [by eexists|].
    apply updateQuery_none in Hq as [Hn Hp]. by destruct Hfield. }
  unfold UpdateProfile. rewrite Hq, Hexec, Hfetch. unfold by_id. cbn [user_rows].
  rewrite by_id_updated. split.
  - by destruct (find _ (user_rows a)).
  - intros Hnone. rewrite Hnone. cbn [fmap option_fmap option_map snd]. split.
    + rewrite updated_others by done. by destruct a.
    + intros Hsel. unfold GetProfile, by_id. by rewrite Hsel, Hnone.
Qed.

Lemma UpdateProfile_result_witness :
  let a := {| user_rows := [{| u_id := 1; u_name := "Ana"; u_email := "ana@example.org";
                               u_password := "$2a$x"; u_phone := "0812" |}];
              users_id_seq := 1 |} in
  fst (UpdateProfile (auth_calm 1) 2 (inr {| up_Name := "Bo"; up_Phone := "" |}) a)
  = Failure 500 "Failed to fetch updated profile".
Proof.
  apply (proj1 (UpdateProfile_result (auth_calm 1) 2 {| up_Name := "Bo"; up_Phone := "" |}
                  {| user_rows := [{| u_id := 1; u_name := "Ana";
                                      u_email := "ana@example.org";
                                      u_password := "$2a$x"; u_phone := "0812" |}];
                     users_id_seq := 1 |}
                  ltac:(left; discriminate) eq_refl eq_refl)).
Defined.

Lemma Register_keeps_emails_unique_witness :
  let hash := λ p : string, Some ("$2a$" +:+ p) in
  let ana := {| u_id := 1; u_name := "Ana"; u_email := "ana@example.org";
                u_password := "$2a$x"; u_phone := "0812" |} in
  let a := {| user_rows := [ana]; users_id_seq := 1 |} in
  Register hash (auth_calm 1)
    (inr {| rr_Name := "Ann"; rr_Email := "ana@example.org"; rr_Password := "secret2";
            rr_Phone := "0813" |}) a
  = (Failure 409 "Email already registered", a).
Proof.
  apply (proj2 (proj2 (Register_keeps_emails_unique (λ p : string, Some ("$2a$" +:+ p))
                         (auth_calm 1)
                         (inr {| rr_Name := "Ann"; rr_Email := "ana@example.org";
                                 rr_Password := "secret2"; rr_Phone := "0813" |})
                         {| user_rows := [{| u_id := 1; u_name := "Ana";
                                             u_email := "ana@example.org";
                                             u_password := "$2a$x"; u_phone := "0812" |}];
                            users_id_seq := 1 |}))
           {| rr_Name := "Ann"; rr_Email := "ana@example.org"; rr_Password := "secret2";
              rr_Phone := "0813" |}); [reflexivity | reflexivity |].
  simpl. by left.
Defined.

Lemma Login_verifies_password_witness :
  let cmp := λ h p : string, String.eqb h ("$2a$" +:+ p) in
  let sign := λ c : Claims, Some ("jwt:" +:+ pretty (cl_UserID c)) in
  let a := {| user_rows := [{| u_id := 1; u_name := "Ana"; u_email := "ana@example.org";
                               u_password := "$2a$secret1"; u_phone := "0812" |}];
              users_id_seq := 1 |} in
  Login cmp sign (auth_calm 1)
    (inr {| lr_Email := "ana@example.org"; lr_Password := "guess" |}) a
  = Failure 401 "Invalid email or password"
  ∧ Login cmp sign (auth_calm 1)
      (inr {| lr_Email := "bob@example.org"; lr_Password := "guess" |}) a
    = Failure 401 "Invalid email or password".
Proof.
  pose (cmp := λ h p : string, String.eqb h ("$2a$" +:+ p)).
  pose (sign := λ c : Claims, Some ("jwt:" +:+ pretty (cl_UserID c))).
  pose (a := {| user_rows := [{| u_id := 1; u_name := "Ana"; u_email := "ana@example.org";
                                 u_password := "$2a$secret1"; u_phone := "0812" |}];
                users_id_seq := 1 |}).
  split.
  - apply (proj1 (Login_verifies_password cmp sign (auth_calm 1)
                    {| lr_Email := "ana@example.org"; lr_Password := "guess" |} a));
      [reflexivity|].
    right. eexists. split; reflexivity.
  - apply (proj1 (Login_verifies_password cmp sign (auth_calm 1)
                    {| lr_Email := "bob@example.org"; lr_Password := "guess" |} a));
      [reflexivity|].
    by left.
Defined.

Lemma ProcessOrder_frame_witness :
  let shop2 :=
    {| db := set_orders (insert 8 {| o_user := 3; o_status := PENDING; o_total := 0%float |})
               (db (shop 5 10));
       trace := [] |} in
  orders (db (snd (ProcessOrder (calm 1) (Some (placed [line 1 2])) shop2))) !! 8
  = orders (db shop2) !! 8.
Proof.
  apply (proj2 (proj2 (proj2 (proj2 (proj2
           (ProcessOrder_frame (calm 1) (Some (placed [line 1 2]))
              {| db := set_orders
                         (insert 8 {| o_user := 3; o_status := PENDING; o_total := 0%float |})
                         (db (shop 5 10));
                 trace := [] |})))))
           8 (placed [line 1 2])); [reflexivity|]. simpl. lia.
Defined.
